(** * PatentScope search API: the task orchestration pipeline of [api.py]

    A shallow embedding of [execute_search], [search_patents],
    [get_task_status] and [list_tasks], and the properties of the task
    life cycle, the de-duplication loop, the statistics tables, the result
    payload and the results directory. *)

From Stdlib Require Import Ascii String ZArith Lia.
From stdpp Require Import gmap strings list fin_maps pretty.

Local Open Scope string_scope.
Local Open Scope Z_scope.
Local Open Scope list_scope.

(** ** Python values used by the pipeline *)

(** Truthiness of a [str]: only the empty string is falsy. *)
Definition truthy (s : string) : bool :=
  match s with
  | EmptyString => false
  | String _ _ => true
  end.

(** [s[:n]] on a [str]. *)
Fixpoint str_prefix (n : nat) (s : string) : string :=
  match n, s with
  | S n', String c s' => String c (str_prefix n' s')
  | _, _ => EmptyString
  end.

(** A patent entry as the scraper returns it: a [dict] of named fields.  A
    field that may be missing is an [option]; [extra] keeps the fields the
    pipeline never reads. *)
Record Patent := mkPatent {
  publicationNumber : option string;
  title : option string;
  publicationDate : option string;
  applicants : option (list string);
  inventors : option (list string);
  pais_filtro : option string;
  extra : list (string * string)
}.

Global Instance Patent_eq_dec : EqDecision Patent.
Proof. solve_decision. Defined.

(** [p.get('publicationNumber', '')] *)
Definition get_publicationNumber (p : Patent) : string :=
  default "" (publicationNumber p).

(** [p.get('publicationDate', '')] *)
Definition get_publicationDate (p : Patent) : string :=
  default "" (publicationDate p).

(** [p.get('applicants', [])] *)
Definition get_applicants (p : Patent) : list string :=
  default [] (applicants p).

(** [p.get('inventors', [])] *)
Definition get_inventors (p : Patent) : list string :=
  default [] (inventors p).

(** [p['pais_filtro'] = pais] *)
Definition set_pais_filtro (pais : string) (p : Patent) : Patent :=
  {| publicationNumber := publicationNumber p;
     title := title p;
     publicationDate := publicationDate p;
     applicants := applicants p;
     inventors := inventors p;
     pais_filtro := Some pais;
     extra := extra p |}.

(** ** Insertion-ordered dictionaries

    [unique_patents] is a Python [dict] whose [values()] are read back in
    insertion order, so it is kept as an association list: a new key goes to
    the end, an existing key is overwritten in place. *)
Module odict.

Definition t (V : Type) : Type := list (string * V).

Definition empty {V} : t V := [].

(** [k in d] *)
Fixpoint contains {V} (k : string) (d : t V) : bool :=
  match d with
  | [] => false
  | (k', _) :: d' => if decide (k = k') then true else contains k d'
  end.

(** [d[k] = v] *)
Fixpoint setitem {V} (k : string) (v : V) (d : t V) : t V :=
  match d with
  | [] => [(k, v)]
  | (k', v') :: d' =>
      if decide (k = k') then (k', v) :: d' else (k', v') :: setitem k v d'
  end.

Definition keys {V} (d : t V) : list string := d.*1.

(** [list(d.values())] *)
Definition values {V} (d : t V) : list V := d.*2.

End odict.

(** ** Removing duplicates (api.py, lines 116-123) *)

(** One iteration of [for p in all_patents]. *)
Definition remove_duplicates_step (unique_patents : odict.t Patent) (p : Patent)
  : odict.t Patent :=
  let pub_num := get_publicationNumber p in
  if truthy pub_num && negb (odict.contains pub_num unique_patents)
  then odict.setitem pub_num p unique_patents
  else unique_patents.

(** The loop, followed by [patents_list = list(unique_patents.values())]. *)
Definition remove_duplicates (all_patents : list Patent) : list Patent :=
  odict.values (fold_left remove_duplicates_step all_patents odict.empty).

(** ** Statistics (api.py, lines 153-185)

    The four tables are unordered key-to-count mappings. *)

(** [d[k] = d.get(k, 0) + 1] *)
Definition increment (k : string) (d : gmap string nat) : gmap string nat :=
  <[k := (default 0 (d !! k) + 1)%nat]> d.

(** Statistics by country: the body of the first [for p in patents_list]. *)
Definition por_pais_step (d : gmap string nat) (p : Patent) : gmap string nat :=
  let pub_num := get_publicationNumber p in
  if truthy pub_num && bool_decide (2 ≤ String.length pub_num)%nat
  then increment (str_prefix 2 pub_num) d
  else d.

Definition por_pais (patents_list : list Patent) : gmap string nat :=
  fold_left por_pais_step patents_list ∅.

(** Statistics by year. *)
Definition por_ano_step (d : gmap string nat) (p : Patent) : gmap string nat :=
  let date := get_publicationDate p in
  if truthy date && bool_decide (4 ≤ String.length date)%nat
  then increment (str_prefix 4 date) d
  else d.

Definition por_ano (patents_list : list Patent) : gmap string nat :=
  fold_left por_ano_step patents_list ∅.

(** [for x in names: if x: d[x] = d.get(x, 0) + 1] *)
Definition count_names (d : gmap string nat) (names : list string)
  : gmap string nat :=
  fold_left (λ d x, if truthy x then increment x d else d) names d.

Definition top_applicants (patents_list : list Patent) : gmap string nat :=
  fold_left (λ d p, count_names d (get_applicants p)) patents_list ∅.

Definition top_inventors (patents_list : list Patent) : gmap string nat :=
  fold_left (λ d p, count_names d (get_inventors p)) patents_list ∅.

(** The sum of the values of a table. *)
Definition total (d : gmap string nat) : nat :=
  map_fold (λ _ v acc, (v + acc)%nat) 0%nat d.

(** The records that the country table counts, and those it counts under [c]. *)
Definition counted (p : Patent) : Prop :=
  (2 ≤ String.length (get_publicationNumber p))%nat.

Definition counted_under (c : string) (p : Patent) : Prop :=
  counted p ∧ str_prefix 2 (get_publicationNumber p) = c.

Global Instance counted_dec p : Decision (counted p).
Proof. unfold counted. apply _. Defined.

Global Instance counted_under_dec c p : Decision (counted_under c p).
Proof. unfold counted_under. apply _. Defined.

(** ** Values written to the task registry and to disk *)

#[local] Unset Elimination Schemes.
Inductive PyVal :=
| VNone
| VBool (b : bool)
| VInt (n : Z)
| VStr (s : string)
| VStrs (l : list string)
| VPatents (l : list Patent)
| VCounts (d : gmap string nat)
| VDict (d : list (string * PyVal)).
#[local] Set Elimination Schemes.

Definition PyDict : Type := list (string * PyVal).

(** [list(d.keys())] *)
Definition dict_keys (d : PyDict) : list string := d.*1.

(** [d.get(k)] *)
Fixpoint dict_get (k : string) (d : PyDict) : option PyVal :=
  match d with
  | [] => None
  | (k', v) :: d' => if decide (k = k') then Some v else dict_get k d'
  end.

(** [stats], the dictionary of the four tables. *)
Definition statistics (patents_list : list Patent) : PyDict :=
  [ ("por_pais", VCounts (por_pais patents_list));
    ("por_ano", VCounts (por_ano patents_list));
    ("top_applicants", VCounts (top_applicants patents_list));
    ("top_inventors", VCounts (top_inventors patents_list)) ].

(** ** Dates *)

Record datetime := mkDatetime {
  year : nat; month : nat; day : nat;
  hour : nat; minute : nat; second : nat; microsecond : nat
}.


Definition digit (n : nat) : ascii := ascii_of_nat (48 + n mod 10).

(** [n] in decimal, zero-padded to [width] digits. *)
Fixpoint zfill (width n : nat) : string :=
  match width with
  | O => ""
  | S w => String (digit (n / 10 ^ w)) (zfill w n)
  end.

(** [d.strftime("%Y%m%d_%H%M%S")] *)
Definition strftime (d : datetime) : string :=
  zfill 4 (year d) +:+ zfill 2 (month d) +:+ zfill 2 (day d) +:+ "_" +:+
  zfill 2 (hour d) +:+ zfill 2 (minute d) +:+ zfill 2 (second d).

(** [d.isoformat()]: the microseconds are printed only when they are not 0. *)
Definition isoformat (d : datetime) : string :=
  zfill 4 (year d) +:+ "-" +:+ zfill 2 (month d) +:+ "-" +:+ zfill 2 (day d) +:+
  "T" +:+ zfill 2 (hour d) +:+ ":" +:+ zfill 2 (minute d) +:+ ":" +:+
  zfill 2 (second d) +:+
  (if decide (microsecond d = 0%nat) then "" else "." +:+ zfill 6 (microsecond d)).


(** ** Paths ([pathlib], POSIX flavour) *)

Record Path := mkPath { absolute : bool; parts : list string }.

Global Instance Path_eq_dec : EqDecision Path.
Proof. solve_decision. Defined.

Definition slash : ascii := "/"%char.

(** The segments between the slashes of [s]. *)
Fixpoint segments (s : string) : list string :=
  match s with
  | EmptyString => [""]
  | String c s' =>
      if decide (c = slash) then "" :: segments s'
      else match segments s' with
           | [] => [String c ""]
           | seg :: segs => String c seg :: segs
           end
  end.


(** Empty segments and [.] are dropped; [..] is kept. *)
Definition path_parts (s : string) : list string :=
  filter (λ seg, seg ≠ "" ∧ seg ≠ ".") (segments s).

Definition is_absolute (s : string) : bool :=
  match s with
  | String c _ => bool_decide (c = slash)
  | EmptyString => false
  end.

(** [Path(s)] *)
Definition Path_of (s : string) : Path :=
  {| absolute := is_absolute s; parts := path_parts s |}.

(** [p / s]: an absolute right operand replaces the left one. *)
Definition path_join (p : Path) (s : string) : Path :=
  if is_absolute s then Path_of s
  else {| absolute := absolute p; parts := parts p ++ path_parts s |}.

Fixpoint join_parts (l : list string) : string :=
  match l with
  | [] => ""
  | [x] => x
  | x :: l' => x +:+ "/" +:+ join_parts l'
  end.

(** [str(p)] *)
Definition path_str (p : Path) : string :=
  match absolute p, parts p with
  | false, [] => "."
  | false, l => join_parts l
  | true, l => "/" +:+ join_parts l
  end.

(** [Path("resultados") / f"patentscope_{request.term}_{timestamp}"], where
    [timestamp = datetime.now().strftime("%Y%m%d_%H%M%S")] (lines 83-84). *)
Definition pasta_name (term : string) (now : datetime) : string :=
  "patentscope_" +:+ term +:+ "_" +:+ strftime now.

Definition pasta_resultados (term : string) (now : datetime) : Path :=
  path_join (Path_of "resultados") (pasta_name term now).

(** ** Requests, tasks and exceptions *)

Inductive Status := queued | running | completed | failed.

Global Instance Status_eq_dec : EqDecision Status.
Proof. solve_decision. Defined.

(** The string stored under ["status"]. *)
Definition status_str (s : Status) : string :=
  match s with
  | queued => "queued"
  | running => "running"
  | completed => "completed"
  | failed => "failed"
  end.

Record SearchRequest := mkRequest {
  term : string;
  limit : Z;
  countries : option (list string);
  use_login : bool;
  get_details : bool;
  max_details : option Z
}.

(** An entry of [tasks]: the keys ["progress"], ["result"] and ["error"] are
    absent until the worker writes them. *)
Record Task := mkTask {
  task_id : string;
  status : Status;
  request : SearchRequest;
  created_at : string;
  progress : option string;
  result : option PyDict;
  error : option string
}.

Definition with_status (v : Status) (t : Task) : Task :=
  {| task_id := task_id t; status := v; request := request t;
     created_at := created_at t; progress := progress t;
     result := result t; error := error t |}.

Definition with_progress (v : string) (t : Task) : Task :=
  {| task_id := task_id t; status := status t; request := request t;
     created_at := created_at t; progress := Some v;
     result := result t; error := error t |}.

Definition with_result (v : PyDict) (t : Task) : Task :=
  {| task_id := task_id t; status := status t; request := request t;
     created_at := created_at t; progress := progress t;
     result := Some v; error := error t |}.

Definition with_error (v : string) (t : Task) : Task :=
  {| task_id := task_id t; status := status t; request := request t;
     created_at := created_at t; progress := progress t;
     result := result t; error := Some v |}.

(** The exceptions of class [Exception], which an [except Exception] clause
    catches.  [KeyError] is what a subscript of [tasks] raises; [Error] is any
    other of them, with its message. *)
Inductive Exception :=
| KeyError (key : string)
| HTTPException (status_code : Z) (detail : string)
| Error (message : string).

(** What a Python program can raise: an exception of class [Exception], or
    one of those that derive from [BaseException] without being of that
    class. *)
Inductive BaseException :=
| of_Exception (e : Exception)
| KeyboardInterrupt
| SystemExit (code : Z).

Coercion of_Exception : Exception >-> BaseException.

(** A raised value is read at the type of what can be raised, so that an
    [Exception] stands where a [BaseException] is expected. *)
Arguments inl {A B} & _.
Arguments pair {A B} & _ _.

(** [isinstance(e, Exception)] *)
Definition is_Exception (e : BaseException) : bool :=
  match e with
  | of_Exception _ => true
  | KeyboardInterrupt | SystemExit _ => false
  end.

(** [d[k]], which raises [KeyError] for a missing key. *)
Definition dict_getitem (k : string) (d : PyDict) : Exception + PyVal :=
  match dict_get k d with
  | Some v => inr v
  | None => inl (KeyError k)
  end.

(** [repr(s)] of a string whose characters are below U+0100: the quote is
    the apostrophe unless the string has one and no double quote; the quote in
    use and the backslash are escaped, tab, line feed and carriage return are
    written [\t], [\n] and [\r], and any other character that is not
    printable as [\xhh]. *)
Definition double_quote : ascii := "034"%char.

Definition backslash : ascii := "\"%char.

Fixpoint contains_char (c : ascii) (s : string) : bool :=
  match s with
  | EmptyString => false
  | String a s' => if decide (a = c) then true else contains_char c s'
  end.

Definition repr_quote (s : string) : ascii :=
  if contains_char "'"%char s && negb (contains_char double_quote s)
  then double_quote else "'"%char.

Definition isprintable (c : ascii) : bool :=
  let n := nat_of_ascii c in
  ((32 <=? n) && (n <? 127) || (161 <=? n) && negb (n =? 173))%nat.

Definition hex_digit (n : nat) : ascii :=
  if (n <? 10)%nat then ascii_of_nat (48 + n) else ascii_of_nat (87 + n).

Definition repr_char (quote c : ascii) : string :=
  if decide (c = quote ∨ c = backslash) then String backslash (String c "")
  else if decide (c = "009"%char) then String backslash "t"
  else if decide (c = "010"%char) then String backslash "n"
  else if decide (c = "013"%char) then String backslash "r"
  else if isprintable c then String c ""
  else String backslash
         (String "x" (String (hex_digit (nat_of_ascii c / 16))
                        (String (hex_digit (nat_of_ascii c mod 16)) ""))).

Fixpoint repr_body (quote : ascii) (s : string) : string :=
  match s with
  | EmptyString => ""
  | String c s' => repr_char quote c +:+ repr_body quote s'
  end.

Definition repr (s : string) : string :=
  let quote := repr_quote s in
  String quote (repr_body quote s +:+ String quote "").

(** [str(e)]: a [KeyError] prints the [repr] of its key. *)
Definition str (e : Exception) : string :=
  match e with
  | KeyError key => repr key
  | HTTPException code detail => pretty code +:+ ": " +:+ detail
  | Error message => message
  end.

(** ** Collaborators

    The scraper, the detail pages, the grouping helper, the clock, the
    identifier generator and the file system are outside [api.py].  Each is a
    function on the state [W] of the outside world, and those that can raise
    return an exception or a value. *)
Record Env (W : Type) := mkEnv {
  uuid4 : W → string * W;
  datetime_now : W → datetime * W;
  PatentScopeScraper : bool → W → (BaseException + unit) * W;
  buscar_patentes :
    string → string → string → Z → W → (BaseException + list Patent) * W;
  buscar_patentes_simples :
    string → Z → W → (BaseException + list Patent) * W;
  enriquecer_patentes_com_detalhes :
    list Patent → option Z → W → (BaseException + list Patent) * W;
  agrupar_por_publication_number :
    list Patent → W → (BaseException + PyVal) * W;
  mkdir : Path → W → (BaseException + unit) * W;
  json_dump : Path → PyVal → W → (BaseException + unit) * W
}.

Arguments uuid4 {W}.
Arguments datetime_now {W}.
Arguments PatentScopeScraper {W}.
Arguments buscar_patentes {W}.
Arguments buscar_patentes_simples {W}.
Arguments enriquecer_patentes_com_detalhes {W}.
Arguments agrupar_por_publication_number {W}.
Arguments mkdir {W}.
Arguments json_dump {W}.

(** A call to a collaborator, with its arguments. *)
Inductive Call :=
| CallUuid4
| CallNow
| CallScraper (login : bool)
| CallBuscar (termo_busca campo pais : string) (limite : Z)
| CallBuscarSimples (termo_busca : string) (limite : Z)
| CallEnriquecer (patents : list Patent) (max_detalhes : option Z)
| CallAgrupar (patents : list Patent)
| CallMkdir (p : Path)
| CallDump (p : Path) (data : PyVal).

(** What a run leaves behind, in order: the registry after each assignment
    into it, the calls to the collaborators, and the registry as it stands
    when a step of the pipeline is over. *)
Inductive Event :=
| Write (reg : gmap string Task)
| Called (c : Call)
| Stage (reg : gmap string Task).

Record State (W : Type) := mkState {
  tasks : gmap string Task;
  world : W;
  trace : list Event
}.

Arguments mkState {W}.
Arguments tasks {W}.
Arguments world {W}.
Arguments trace {W}.

(** ** The monad of the handlers: state and exceptions *)

Definition M (W A : Type) : Type := State W → (BaseException + A) * State W.

Definition ret {W A} (a : A) : M W A := λ s, (inr a, s).

Definition bind {W A B} (m : M W A) (k : A → M W B) : M W B :=
  λ s, match m s with
       | (inr a, s') => k a s'
       | (inl e, s') => (inl e, s')
       end.

(** [raise e] *)
Definition raise {W A} (e : BaseException) : M W A := λ s, (inl e, s).

(** [try: m / except Exception as e: h e]: an exception that is not of
    class [Exception] passes through the clause. *)
Definition try_except {W A} (m : M W A) (h : Exception → M W A) : M W A :=
  λ s, match m s with
       | (inr a, s') => (inr a, s')
       | (inl (of_Exception e), s') => h e s'
       | (inl b, s') => (inl b, s')
       end.

Declare Scope py_scope.
Delimit Scope py_scope with py.
Notation "x <- m ;; k" := (bind m (λ x, k))
  (at level 100, m at next level, k at level 200, right associativity,
   format "'[v' x  <-  m  ;; '/' k ']'") : py_scope.
Notation "m ;; k" := (bind m (λ _, k))
  (at level 100, k at level 200, right associativity,
   format "'[v' m  ;; '/' k ']'") : py_scope.
Local Open Scope py_scope.

(** [for x in l: acc = body(acc, x)] *)
Fixpoint for_each {W A B} (l : list A) (acc : B) (body : B → A → M W B)
  : M W B :=
  match l with
  | [] => ret acc
  | x :: l' => acc' <- body acc x ;; for_each l' acc' body
  end.

(** A call to a collaborator: it changes the outside world only. *)
Definition external {W A} (c : Call) (f : W → (BaseException + A) * W) : M W A :=
  λ s, let '(r, w) := f (world s) in
       (r, mkState (tasks s) w (trace s ++ [Called c])).

(** The same for a collaborator that does not raise. *)
Definition external_total {W A} (c : Call) (f : W → A * W) : M W A :=
  external c (λ w, let '(a, w') := f w in (inr a, w')).

(** [tasks[task_id] = task] *)
Definition tasks_setitem {W} (task_id : string) (task : Task) : M W unit :=
  λ s, let reg := <[task_id := task]> (tasks s) in
       (inr (), mkState reg (world s) (trace s ++ [Write reg])).

(** [tasks[task_id][field] = v]: the subscript [tasks[task_id]] raises
    [KeyError] when the task is not in the registry. *)
Definition task_update {W} (task_id : string) (upd : Task → Task) : M W unit :=
  λ s, match tasks s !! task_id with
       | None => (inl (KeyError task_id), s)
       | Some task => tasks_setitem task_id (upd task) s
       end.

(** The end of a step of the pipeline. *)
Definition stage {W} : M W unit :=
  λ s, (inr (), mkState (tasks s) (world s) (trace s ++ [Stage (tasks s)])).

(** ** The background task [execute_search] (api.py, lines 68-232) *)

Section Pipeline.
Context {W : Type} (env : Env W).

(** [datetime.now()] *)
Definition now : M W datetime := external_total CallNow (datetime_now env).

(** Lines 72-73: the task starts to run. *)
Definition start (task_id : string) : M W unit :=
  task_update task_id (with_status running) ;;
  task_update task_id (with_progress "Initializing scraper...") ;;
  stage.

(** Lines 76-85: the scraper and the results directory. *)
Definition prepare (request : SearchRequest) : M W Path :=
  external (CallScraper (use_login request))
    (PatentScopeScraper env (use_login request)) ;;
  d <- now ;;
  let pasta := pasta_resultados (term request) d in
  external (CallMkdir pasta) (mkdir env pasta) ;;
  ret pasta.

(** Lines 94-109: one search per country, each batch tagged with its country
    and appended to [all_patents]. *)
Definition search_country (task_id : string) (request : SearchRequest)
    (all_patents : list Patent) (pais : string) : M W (list Patent) :=
  task_update task_id (with_progress ("Searching in " +:+ pais +:+ "...")) ;;
  patents <- external (CallBuscar (term request) "all" pais (limit request))
               (buscar_patentes env (term request) "all" pais (limit request)) ;;
  ret (all_patents ++ (set_pais_filtro pais <$> patents)).

(** Lines 87-114.  [if request.countries] holds for a list that is not empty. *)
Definition search (task_id : string) (request : SearchRequest)
  : M W (list Patent) :=
  task_update task_id
    (with_progress ("Searching patents for term: " +:+ term request)) ;;
  all_patents <-
    match countries request with
    | Some (pais :: rest) =>
        for_each (pais :: rest) [] (search_country task_id request)
    | _ =>
        task_update task_id (with_progress "Executing general search...") ;;
        external (CallBuscarSimples (term request) (limit request))
          (buscar_patentes_simples env (term request) (limit request))
    end ;;
  stage ;;
  ret all_patents.

(** Lines 116-126. *)
Definition deduplicate (task_id : string) (all_patents : list Patent)
  : M W (list Patent) :=
  let patents_list := remove_duplicates all_patents in
  task_update task_id
    (with_progress ("Found " +:+ pretty (length patents_list) +:+
                    " unique patents")) ;;
  stage ;;
  ret patents_list.

(** The payload of lines 130-134. *)
Definition empty_result : PyDict :=
  [ ("message", VStr "No patents found");
    ("total_found", VInt 0);
    ("patents", VPatents []) ].

(** Lines 128-135: nothing was found. *)
Definition complete_empty (task_id : string) : M W unit :=
  task_update task_id (with_status completed) ;;
  task_update task_id (with_result empty_result) ;;
  stage.

(** Lines 138-151: the details, when asked for; an exception of the
    collaborator is caught here and leaves [patents_list] as it was. *)
Definition enrich (task_id : string) (request : SearchRequest)
    (patents_list : list Patent) : M W (list Patent) :=
  patents_list' <-
    (if get_details request && bool_decide (0 < length patents_list)%nat
     then
       task_update task_id (with_progress "Retrieving complete details...") ;;
       try_except
         (external (CallEnriquecer patents_list (max_details request))
            (enriquecer_patentes_com_detalhes env patents_list
               (max_details request)))
         (λ e,
            task_update task_id
              (with_progress ("Error retrieving details: " +:+ str e)) ;;
            ret patents_list)
     else ret patents_list) ;;
  stage ;;
  ret patents_list'.

(** [summary["search_info"]], lines 199-207. *)
Definition search_info (request : SearchRequest) (data_busca : datetime)
    (all_patents patents_list : list Patent) : PyDict :=
  [ ("termo", VStr (term request));
    ("data_busca", VStr (isoformat data_busca));
    ("total_encontrado", VInt (Z.of_nat (length all_patents)));
    ("total_unico", VInt (Z.of_nat (length patents_list)));
    ("paises_filtro", from_option VStrs VNone (countries request));
    ("limite", VInt (limit request));
    ("detalhes_completos", VBool (get_details request)) ].

(** [summary], lines 198-210. *)
Definition summary (info stats : PyDict) (patents_list : list Patent) : PyDict :=
  [ ("search_info", VDict info);
    ("statistics", VDict stats);
    ("patents", VPatents patents_list) ].

Definition json_file (pasta : Path) : Path :=
  path_join pasta "patents_complete.json".

Definition summary_file (pasta : Path) : Path :=
  path_join pasta "summary_with_stats.json".

(** Lines 187-214: the grouped patents and the summary are written. *)
Definition persist (task_id : string) (request : SearchRequest) (pasta : Path)
    (all_patents patents_list : list Patent) (stats : PyDict) : M W PyDict :=
  task_update task_id (with_progress "Saving results...") ;;
  patents_agrupadas <-
    external (CallAgrupar patents_list)
      (agrupar_por_publication_number env patents_list) ;;
  external (CallDump (json_file pasta) patents_agrupadas)
    (json_dump env (json_file pasta) patents_agrupadas) ;;
  data_busca <- now ;;
  let info := search_info request data_busca all_patents patents_list in
  external (CallDump (summary_file pasta) (VDict (summary info stats patents_list)))
    (json_dump env (summary_file pasta)
       (VDict (summary info stats patents_list))) ;;
  stage ;;
  ret info.

(** The payload of lines 218-227. *)
Definition full_result (info stats : PyDict) (patents_list : list Patent)
    (pasta : Path) : PyDict :=
  [ ("search_info", VDict info);
    ("statistics", VDict stats);
    ("total_patents", VInt (Z.of_nat (length patents_list)));
    ("patents", VPatents (take 10 patents_list));
    ("files", VDict
       [ ("json_complete", VStr (path_str (json_file pasta)));
         ("summary", VStr (path_str (summary_file pasta))) ]) ].

(** Lines 216-227. *)
Definition complete (task_id : string) (info stats : PyDict)
    (patents_list : list Patent) (pasta : Path) : M W unit :=
  task_update task_id (with_status completed) ;;
  task_update task_id (with_result (full_result info stats patents_list pasta)) ;;
  stage.

(** Lines 137-227: what follows the test [len(patents_list) == 0]. *)
Definition finish (task_id : string) (request : SearchRequest) (pasta : Path)
    (all_patents patents_list : list Patent) : M W unit :=
  patents_list <- enrich task_id request patents_list ;;
  let stats := statistics patents_list in
  info <- persist task_id request pasta all_patents patents_list stats ;;
  complete task_id info stats patents_list pasta.

(** Lines 71-114: up to the end of the search. *)
Definition find (task_id : string) (request : SearchRequest)
  : M W (Path * list Patent) :=
  start task_id ;;
  pasta <- prepare request ;;
  all_patents <- search task_id request ;;
  ret (pasta, all_patents).

(** Lines 116-227: from the end of the search on.  The [return] of line 135
    is the first branch. *)
Definition conclude (task_id : string) (request : SearchRequest) (pasta : Path)
    (all_patents : list Patent) : M W unit :=
  patents_list <- deduplicate task_id all_patents ;;
  if decide (length patents_list = 0%nat)
  then complete_empty task_id
  else finish task_id request pasta all_patents patents_list.

(** The body of the [try]. *)
Definition execute_search_try (task_id : string) (request : SearchRequest)
  : M W unit :=
  found <- find task_id request ;;
  conclude task_id request found.1 found.2.

(** Lines 229-232: the handler. *)
Definition execute_search_except (task_id : string) (e : Exception) : M W unit :=
  task_update task_id (with_status failed) ;;
  task_update task_id (with_error (str e)) ;;
  stage.

Definition execute_search (task_id : string) (request : SearchRequest)
  : M W unit :=
  try_except (execute_search_try task_id request)
             (execute_search_except task_id).

(** ** The endpoints (api.py, lines 256-313) *)

Record SearchResponse := mkSearchResponse {
  response_task_id : string;
  response_status : string;
  response_message : string
}.

Record TaskStatus := mkTaskStatus {
  ts_task_id : string;
  ts_status : string;
  ts_progress : option string;
  ts_result : option PyDict;
  ts_error : option string
}.

(** A call scheduled with [background_tasks.add_task(execute_search, ...)]. *)
Definition BackgroundTasks : Type := list (string * SearchRequest).

(** [POST /search], lines 263-280. *)
Definition search_patents (request : SearchRequest)
    (background_tasks : BackgroundTasks)
  : M W (SearchResponse * BackgroundTasks) :=
  task_id <- external_total CallUuid4 (uuid4 env) ;;
  d <- now ;;
  tasks_setitem task_id
    {| task_id := task_id; status := queued; request := request;
       created_at := isoformat d; progress := None; result := None;
       error := None |} ;;
  stage ;;
  ret (mkSearchResponse task_id "queued"
         "Search task created. Use the task_id to check status at /status/{task_id}",
       background_tasks ++ [(task_id, request)]).

(** [GET /status/{task_id}], lines 286-297. *)
Definition get_task_status (task_id : string) : M W TaskStatus :=
  λ s, match tasks s !! task_id with
       | None => raise (HTTPException 404 "Task not found") s
       | Some task =>
           ret (mkTaskStatus task_id (status_str (status task)) (progress task)
                  (result task) (error task)) s
       end.

(** [GET /tasks], lines 303-313; the order of the entries is not kept. *)
Definition list_tasks : M W (nat * list (string * string * string)) :=
  λ s, ret (size (tasks s),
            (λ kv, (kv.1, status_str (status kv.2), created_at kv.2))
              <$> map_to_list (tasks s)) s.

(** ** The server: requests and scheduled workers *)

Record System := mkSystem {
  state : State W;
  background : BackgroundTasks
}.

(** What happens to the server: a request comes in, or the [i]-th scheduled
    worker runs.  What a handler or a worker raises goes to the framework,
    and the state it has reached stays; a server that an exception stops has
    made a beginning of one of these runs. *)
Inductive Op :=
| PostSearch (request : SearchRequest)
| GetStatus (task_id : string)
| GetTasks
| RunWorker (i : nat).

Definition handle (op : Op) (sys : System) : System :=
  match op with
  | PostSearch request =>
      match search_patents request [] (state sys) with
      | (inr (_, scheduled), s') => mkSystem s' (background sys ++ scheduled)
      | (inl _, s') => mkSystem s' (background sys)
      end
  | GetStatus task_id =>
      mkSystem (get_task_status task_id (state sys)).2 (background sys)
  | GetTasks => mkSystem (list_tasks (state sys)).2 (background sys)
  | RunWorker i =>
      match background sys !! i with
      | Some (task_id, request) =>
          mkSystem (execute_search task_id request (state sys)).2
                   (delete i (background sys))
      | None => sys
      end
  end.

Definition run (ops : list Op) (sys : System) : System :=
  fold_left (λ sys op, handle op sys) ops sys.

(** The server as it starts: [tasks = {}]. *)
Definition boot (w : W) : System := mkSystem (mkState ∅ w []) [].

(** Every identifier that [uuid.uuid4()] returns along [ops] is new. *)
Fixpoint fresh_uuids (ops : list Op) (sys : System) : Prop :=
  match ops with
  | [] => True
  | op :: ops' =>
      match op with
      | PostSearch _ => tasks (state sys) !! (uuid4 env (world (state sys))).1 = None
      | _ => True
      end ∧ fresh_uuids ops' (handle op sys)
  end.

End Pipeline.

Arguments System : clear implicits.
Arguments mkSystem {W}.
Arguments state {W}.
Arguments background {W}.

(** ** What is observed of a run *)

Definition registry_of (ev : Event) : option (gmap string Task) :=
  match ev with
  | Write reg | Stage reg => Some reg
  | Called _ => None
  end.

(** The statuses that the registry held for [task_id], oldest first. *)
Definition statuses (task_id : string) (tr : list Event) : list Status :=
  omap (λ ev, reg ← registry_of ev; status <$> reg !! task_id) tr.

(** The registry at the end of each step. *)
Definition snapshots (tr : list Event) : list (gmap string Task) :=
  omap (λ ev, match ev with Stage reg => Some reg | _ => None end) tr.

(** The calls to the collaborators. *)
Definition calls (tr : list Event) : list Call :=
  omap (λ ev, match ev with Called c => Some c | _ => None end) tr.

(** A status and the one held next: the same one, or the next of
    queued, running, completed | failed. *)
Definition status_next (a b : Status) : Prop :=
  a = b ∨ (a = queued ∧ b = running) ∨
  (a = running ∧ (b = completed ∨ b = failed)).

(** Successive statuses from [a] on. *)
Fixpoint chain (a : Status) (l : list Status) : Prop :=
  match l with
  | [] => True
  | b :: l' => status_next a b ∧ chain b l'
  end.

(** A history of statuses: it starts with [queued] and moves by
    [status_next]. *)
Definition history (l : list Status) : Prop :=
  match l with
  | [] => True
  | a :: l' => a = queued ∧ chain a l'
  end.

(** A status held several times in a row is counted once. *)
Fixpoint collapse (l : list Status) : list Status :=
  match l with
  | [] => []
  | a :: l' =>
      match l' with
      | [] => [a]
      | b :: _ => if decide (a = b) then collapse l' else a :: collapse l'
      end
  end.

(** The walk queued, running, completed | failed, or a beginning of it. *)
Definition forward_walk (l : list Status) : Prop :=
  collapse l `prefix_of` [queued; running; completed] ∨
  collapse l `prefix_of` [queued; running; failed].

Definition terminal (q : Status) : Prop := q = completed ∨ q = failed.

(** The payload goes with [completed] and the error with [failed]. *)
Definition payload_ok (task : Task) : Prop :=
  (is_Some (result task) ↔ status task = completed) ∧
  (is_Some (error task) ↔ status task = failed).


(** The trace that a worker of [task_id] may leave over the registry [reg0],
    from the status [q] to the status [q']: it writes to its own task only,
    moves its status by [ok], calls the collaborators of [allowed] only, and
    ends its steps with a task of [good]. *)
Inductive walk (ok : Status → Status → Prop) (good : Task → Prop)
    (allowed : Call → Prop) (reg0 : gmap string Task) (task_id : string)
  : Status → list Event → Status → Prop :=
| walk_nil q : walk ok good allowed reg0 task_id q [] q
| walk_called q c tr q' :
    allowed c →
    walk ok good allowed reg0 task_id q tr q' →
    walk ok good allowed reg0 task_id q (Called c :: tr) q'
| walk_write q task tr q' :
    ok q (status task) →
    walk ok good allowed reg0 task_id (status task) tr q' →
    walk ok good allowed reg0 task_id q
      (Write (<[task_id := task]> reg0) :: tr) q'
| walk_stage q task tr q' :
    status task = q →
    good task →
    walk ok good allowed reg0 task_id q tr q' →
    walk ok good allowed reg0 task_id q
      (Stage (<[task_id := task]> reg0) :: tr) q'.

(** The calls of lines 71-114. *)
Definition search_call (c : Call) : Prop :=
  match c with
  | CallScraper _ | CallNow | CallMkdir _ | CallBuscar _ _ _ _
  | CallBuscarSimples _ _ => True
  | _ => False
  end.

(** A status and its successor in the history of a task. *)
Definition trail (l : list Status) (cur : option Status) : Prop :=
  history l ∧ last l = cur.

(** ** Specifications of the monad *)

(** From a state in [P], [m] returns [a] in a state of [Q a] or raises [e] in
    a state of [E e]. *)
Definition hoare {W A} (P : State W → Prop) (m : M W A)
    (Q : A → State W → Prop) (E : BaseException → State W → Prop) : Prop :=
  ∀ s, P s →
       match m s with
       | (inr a, s') => Q a s'
       | (inl e, s') => E e s'
       end.

(** The worker of [task_id], started over the registry [reg0] and the trace
    [tr0] when the status was [q0], has reached a task of [P]. *)
Definition reached {W} (ok : Status → Status → Prop) (good : Task → Prop)
    (allowed : Call → Prop) (reg0 : gmap string Task) (tr0 : list Event)
    (task_id : string) (q0 : Status) (P : Task → Prop) (s : State W) : Prop :=
  ∃ task tr,
    tasks s = <[task_id := task]> reg0 ∧
    trace s = tr0 ++ tr ∧
    walk ok good allowed reg0 task_id q0 tr (status task) ∧
    P task.

(** A task in the status [q], with [base] besides. *)
Definition in_status (q : Status) (base : Task → Prop) (task : Task) : Prop :=
  status task = q ∧ base task.

(** A task that has neither a payload nor an error. *)
Definition no_payload (task : Task) : Prop :=
  result task = None ∧ error task = None.

Definition bare (q : Status) : Task → Prop := in_status q no_payload.

(** A running task of [base] that was completed with a payload of [shape]. *)
Definition completed_with (base : Task → Prop) (shape : PyDict → Prop)
    (task : Task) : Prop :=
  ∃ task0 r,
    in_status running base task0 ∧ shape r ∧
    task = with_result r (with_status completed task0).

(** A running task of [base] that failed with the message [msg]. *)
Definition failed_with (base : Task → Prop) (msg : string) (task : Task)
  : Prop :=
  ∃ task0,
    in_status running base task0 ∧
    task = with_error msg (with_status failed task0).

(** The payload of a run that found [all_patents]. *)
Definition result_shape (all_patents : list Patent) (pasta : Path)
    (r : PyDict) : Prop :=
  if decide (remove_duplicates all_patents = [])
  then r = empty_result
  else ∃ info patents_list,
         r = full_result info (statistics patents_list) patents_list pasta.

(** How a worker leaves its task: completed with a payload of one of the two
    shapes, or failed with the message of an exception. *)
Definition outcome (base : Task → Prop) (task : Task) : Prop :=
  (∃ all_patents pasta,
     completed_with base (result_shape all_patents pasta) task) ∨
  (∃ e, failed_with base (str e) task).

(** What holds of the server after every operation: the statuses of each
    task make a history up to its current status, the payloads agree with the
    statuses in every snapshot and now, and each scheduled worker waits, once,
    for a task that is queued and bare. *)
Definition invariant {W} (sys : System W) : Prop :=
  let reg := tasks (state sys) in
  let tr := trace (state sys) in
  (∀ id, trail (statuses id tr) (status <$> reg !! id)) ∧
  Forall (map_Forall (λ _, payload_ok)) (snapshots tr) ∧
  map_Forall (λ _, payload_ok) reg ∧
  NoDup (background sys).*1 ∧
  Forall (λ job, ∃ task, reg !! job.1 = Some task ∧ bare queued task)
    (background sys).

(** ** A scripted outside world, to run the pipeline on examples *)

Module Demo.

Record World := mkWorld {
  uuids : list string;
  clock : datetime;
  catalogue : list (string * (BaseException + list Patent));
  details : option BaseException;
  disk : list (Path * PyVal);
  disk_error : option BaseException
}.

Definition pop_uuid (w : World) : string * World :=
  (hd "" (uuids w),
   mkWorld (tl (uuids w)) (clock w) (catalogue w) (details w) (disk w)
     (disk_error w)).

(** The clock moves by a microsecond at each reading. *)
Definition tick (w : World) : datetime * World :=
  let d := clock w in
  (d,
   mkWorld (uuids w)
     (mkDatetime (year d) (month d) (day d) (hour d) (minute d) (second d)
        (S (microsecond d)))
     (catalogue w) (details w) (disk w) (disk_error w)).

Fixpoint lookup_catalogue (k : string)
    (c : list (string * (BaseException + list Patent)))
  : BaseException + list Patent :=
  match c with
  | [] => inr []
  | (k', r) :: c' => if decide (k = k') then r else lookup_catalogue k c'
  end.

(** A search returns at most [limite] entries of the catalogue. *)
Definition lookup_limited (k : string) (limite : Z) (w : World)
  : (BaseException + list Patent) * World :=
  (match lookup_catalogue k (catalogue w) with
   | inr l => inr (take (Z.to_nat limite) l)
   | inl e => inl e
   end, w).

Definition enriched (p : Patent) : Patent :=
  {| publicationNumber := publicationNumber p;
     title := title p;
     publicationDate := publicationDate p;
     applicants := applicants p;
     inventors := inventors p;
     pais_filtro := pais_filtro p;
     extra := ("abstract", "...") :: extra p |}.

Definition write (p : Path) (data : PyVal) (w : World)
  : (BaseException + unit) * World :=
  match disk_error w with
  | Some e => (inl e, w)
  | None =>
      (inr (),
       mkWorld (uuids w) (clock w) (catalogue w) (details w)
         ((p, data) :: disk w) (disk_error w))
  end.

Definition env : Env World :=
  {| uuid4 := pop_uuid;
     datetime_now := tick;
     PatentScopeScraper := λ _ w, (inr (), w);
     buscar_patentes := λ _ _ pais limite w, lookup_limited pais limite w;
     buscar_patentes_simples := λ _ limite w, lookup_limited "" limite w;
     enriquecer_patentes_com_detalhes := λ l _ w,
       match details w with
       | Some e => (inl e, w)
       | None => (inr (enriched <$> l), w)
       end;
     agrupar_por_publication_number := λ l w,
       (inr (VDict ((λ p, (get_publicationNumber p, VPatents [p])) <$> l)), w);
     mkdir := λ _ w, (inr (), w);
     json_dump := write |}.

Definition patent (number date : string) : Patent :=
  mkPatent (Some number) (Some ("Title of " +:+ number)) (Some date)
    (Some ["ACME"]) (Some ["Doe, J."]) None [].

(** 3 November 2026, 10:15:30. *)
Definition noon : datetime := mkDatetime 2026 11 3 10 15 30 0.

Definition world (c : list (string * (BaseException + list Patent)))
    (details : option BaseException) (disk_error : option BaseException) : World :=
  mkWorld ["id-1"; "id-2"; "id-3"] noon c details [] disk_error.

Definition aspirin (cs : option (list string)) (lim : Z) (det : bool)
  : SearchRequest :=
  mkRequest "aspirin" lim cs false det None.

(** Two patents in the United States, one of them also found in Europe. *)
Definition two_countries : World :=
  world [ ("US", inr [patent "US1" "2020-01-01"; patent "US2" "2021-06-30"]);
          ("EP", inr [patent "EP1" "2021-01-01"; patent "US1" "2020-01-01"]) ]
    None None.

(** Two submissions, queries, and the two workers in the other order. *)
Definition session : list Op :=
  [ PostSearch (aspirin (Some ["US"; "EP"]) 5 false);
    GetStatus "id-1";
    PostSearch (aspirin None 5 true);
    RunWorker 1;
    GetTasks;
    RunWorker 0;
    GetStatus "id-9" ].

(** The search collaborator is down. *)
Definition search_down : World :=
  world [ ("US", inl (of_Exception (Error "connection refused"))) ] None None.


(** The search returns two records without a publication number. *)
Definition nameless : World :=
  world [ ("", inr [ mkPatent None (Some "Untitled") None None None None [];
                     mkPatent (Some "") None (Some "2020-01-01") None None
                       None [] ]) ]
    None None.





(** The state of the server after one submission. *)
Definition submitted (r : SearchRequest) (w : World) : State World :=
  state (run env [PostSearch r] (boot w)).

(** The last task state of a run of the server. *)
Definition task_after (ops : list Op) (w : World) (id : string) : option Task :=
  tasks (state (run env ops (boot w))) !! id.

End Demo.

(** ** A search collaborator that always finds new patents *)

Module Counter.

(** [n] times the letter x. *)
Fixpoint xs (n : nat) : string :=
  match n with
  | O => ""
  | S n' => String "x" (xs n')
  end.

(** The [n]-th patent. *)
Definition numbered (n : nat) : Patent :=
  mkPatent (Some (String "P" (xs n))) None None None None None [].

(** The state of the world is the number of patents returned so far: each
    search returns the next [limite] ones. *)
Definition next (limite : Z) (w : nat) : (BaseException + list Patent) * nat :=
  (inr (numbered <$> seq w (Z.to_nat limite)), (w + Z.to_nat limite)%nat).

Definition env : Env nat :=
  {| uuid4 := λ w, ("id", w);
     datetime_now := λ w, (Demo.noon, w);
     PatentScopeScraper := λ _ w, (inr (), w);
     buscar_patentes := λ _ _ _ limite w, next limite w;
     buscar_patentes_simples := λ _ limite w, next limite w;
     enriquecer_patentes_com_detalhes := λ l _ w, (inr l, w);
     agrupar_por_publication_number := λ _ w, (inr VNone, w);
     mkdir := λ _ w, (inr (), w);
     json_dump := λ _ _ w, (inr (), w) |}.

(** A request for [cs] with the limit [lim], without details. *)
Definition request (cs : list string) (lim : Z) : SearchRequest :=
  mkRequest "aspirin" lim (Some cs) false false None.

End Counter.

(** The batches, each tagged with its country, one after the other. *)
Definition tagged (cs : list string) (batches : list (list Patent))
  : list Patent :=
  concat (zip_with (λ pais batch, set_pais_filtro pais <$> batch) cs batches).

(** [result["total_patents"]] *)
Definition total_patents (task : Task) : option PyVal :=
  result task ≫= dict_get "total_patents".

(** ** The other tables *)

(** The records that the year table counts: those whose publication date has
    at least four characters. *)
Definition dated (p : Patent) : Prop :=
  (4 ≤ String.length (get_publicationDate p))%nat.

Global Instance dated_dec p : Decision (dated p).
Proof. unfold dated. apply _. Defined.

(** The applicants, then the inventors, of all the records, in order. *)
Definition all_applicants (patents_list : list Patent) : list string :=
  concat (get_applicants <$> patents_list).

Definition all_inventors (patents_list : list Patent) : list string :=
  concat (get_inventors <$> patents_list).

(** The number of times that the non-empty name [x] occurs in [names]. *)
Definition occurrences (x : string) (names : list string) : nat :=
  length (filter (λ y, y ≠ "" ∧ y = x) names).

(** The search of the second of three countries is refused. *)
Definition second_down : Demo.World :=
  Demo.world [ ("US", inr [Demo.patent "US1" "2020-01-01"]);
               ("EP", inl (of_Exception (Error "blocked")));
               ("JP", inr [Demo.patent "JP1" "2019-05-05"]) ]
    None None.

(** ** Operations of the server, classified *)

(** The operations that write: a submission or a worker. *)
Definition writes_state (op : Op) : bool :=
  match op with
  | PostSearch _ | RunWorker _ => true
  | GetStatus _ | GetTasks => false
  end.

Definition is_submission (op : Op) : bool :=
  match op with
  | PostSearch _ => true
  | _ => false
  end.

(** The fields of a task that the worker is not meant to write. *)
Definition same_identity (task0 task : Task) : Prop :=
  task_id task = task_id task0 ∧
  request task = request task0 ∧
  created_at task = created_at task0.

(** * Properties *)

(** ** Strings and ordered dictionaries *)

Lemma truthy_spec (s : string) : truthy s = true ↔ s ≠ "".
Proof. destruct s; simpl; split; congruence. Qed.

Lemma truthy_false (s : string) : truthy s = false ↔ s = "".
Proof. destruct s; simpl; split; congruence. Qed.

Lemma odict_contains_spec {V} (k : string) (d : odict.t V) :
  odict.contains k d = true ↔ k ∈ odict.keys d.
Proof.
  unfold odict.keys. induction d as [|[k' v'] d IH]; simpl.
  - split; [discriminate | by intros ?%elem_of_nil].
  - rewrite elem_of_cons. destruct (decide (k = k')) as [->|Hne].
    + split; auto.
    + rewrite IH. split; [auto | intros [?|?]; [done | auto]].
Qed.

Lemma odict_contains_false {V} (k : string) (d : odict.t V) :
  odict.contains k d = false ↔ k ∉ odict.keys d.
Proof.
  rewrite <- odict_contains_spec.
  destruct (odict.contains k d); split; try done.
Qed.

Lemma odict_setitem_fresh {V} (k : string) (v : V) (d : odict.t V) :
  odict.contains k d = false → odict.setitem k v d = d ++ [(k, v)].
Proof.
  induction d as [|[k' v'] d IH]; simpl; [done|].
  destruct (decide (k = k')); [done|]. intros H. by rewrite IH.
Qed.

(** ** Removing duplicates *)

Section Dedup.

Let pub := get_publicationNumber.
Let entry (p : Patent) : string * Patent := (pub p, p).

(** A record is kept when its number is not empty and not yet a key. *)
Lemma remove_duplicates_step_keep d p :
  pub p ≠ "" → pub p ∉ odict.keys d →
  remove_duplicates_step d p = d ++ [entry p].
Proof.
  intros Hne Hfresh. unfold remove_duplicates_step. fold pub.
  apply truthy_spec in Hne. apply odict_contains_false in Hfresh.
  rewrite Hne, Hfresh. simpl. by apply odict_setitem_fresh.
Qed.

Lemma remove_duplicates_step_skip d p :
  pub p = "" ∨ pub p ∈ odict.keys d → remove_duplicates_step d p = d.
Proof.
  intros H. unfold remove_duplicates_step. fold pub.
  destruct (truthy (pub p)) eqn:Ht; [|done].
  destruct (odict.contains (pub p) d) eqn:Hc; [done|].
  apply truthy_spec in Ht. apply odict_contains_false in Hc. by destruct H.
Qed.

Lemma head_filter_skip (k : string) (p : Patent) (l : list Patent) :
  pub p ≠ k →
  head (filter (λ q, pub q = k) (p :: l)) = head (filter (λ q, pub q = k) l).
Proof. intros H. by rewrite filter_cons_False. Qed.

(** The loop appends to the dictionary the first record of each new number,
    in the order of the input. *)
Lemma remove_duplicates_loop (l : list Patent) : ∀ d : odict.t Patent,
  ∃ kept,
    fold_left remove_duplicates_step l d = d ++ (entry <$> kept) ∧
    kept `sublist_of` l ∧
    Forall (λ p, pub p ≠ "" ∧ pub p ∉ odict.keys d) kept ∧
    NoDup (pub <$> kept) ∧
    ∀ k, k ≠ "" → k ∉ odict.keys d →
         head (filter (λ q, pub q = k) kept) = head (filter (λ q, pub q = k) l).
Proof.
  induction l as [|p l IH]; intros d.
  { exists []. simpl. rewrite app_nil_r. repeat split; try constructor; done. }
  destruct (decide (pub p ≠ "" ∧ pub p ∉ odict.keys d)) as [[Hne Hfresh]|Hskip].
  - destruct (IH (d ++ [entry p])) as (kept & Hfold & Hsub & Hall & Hnd & Hfirst).
    exists (p :: kept). simpl.
    rewrite remove_duplicates_step_keep, Hfold by done.
    rewrite <- app_assoc. split; [done|].
    assert (Hkeys : ∀ k, k ∉ odict.keys (d ++ [entry p]) ↔
                         ((k ∉ odict.keys d) ∧ k ≠ pub p)).
    { intros k. unfold odict.keys. rewrite fmap_app, elem_of_app. simpl.
      rewrite list_elem_of_singleton. tauto. }
    split; [by apply sublist_skip|].
    split.
    { constructor; [done|]. eapply Forall_impl; [exact Hall|].
      intros q [? Hq]. apply Hkeys in Hq. tauto. }
    split.
    { constructor; [|done]. rewrite list_elem_of_fmap. intros (q & Heq & Hq).
      rewrite Forall_forall in Hall. destruct (Hall q Hq) as [_ Hq'].
      apply Hkeys in Hq'. by destruct Hq'. }
    intros k Hk Hkd. destruct (decide (pub p = k)) as [Heq|Hneq].
    + by rewrite !filter_cons_True.
    + rewrite !head_filter_skip by done. apply Hfirst; [done|].
      apply Hkeys. split; [done | congruence].
  - destruct (IH d) as (kept & Hfold & Hsub & Hall & Hnd & Hfirst).
    exists kept. simpl. rewrite remove_duplicates_step_skip.
    2:{ destruct (decide (pub p = "")); [by left|]. right.
        destruct (decide (pub p ∈ odict.keys d)); [done|]. by destruct Hskip. }
    split; [done|]. split; [by apply sublist_cons|]. split; [done|].
    split; [done|]. intros k Hk Hkd. rewrite head_filter_skip; [by apply Hfirst|].
    intros <-. by apply Hskip.
Qed.

Lemma values_entries (l : list Patent) : odict.values (entry <$> l) = l.
Proof.
  unfold odict.values.
  induction l as [|p l IH]; [done|]. rewrite !fmap_cons. simpl. by f_equal.
Qed.

(** Records of distinct, non-empty numbers are all kept. *)
Lemma remove_duplicates_loop_distinct (l : list Patent) : ∀ d : odict.t Patent,
  Forall (λ p, pub p ≠ "" ∧ pub p ∉ odict.keys d) l →
  NoDup (pub <$> l) →
  fold_left remove_duplicates_step l d = d ++ (entry <$> l).
Proof.
  induction l as [|p l IH]; intros d Hall Hnd; simpl.
  { by rewrite app_nil_r. }
  apply Forall_cons in Hall as [[Hne Hfresh] Hall].
  rewrite fmap_cons in Hnd. apply NoDup_cons in Hnd as [Hp Hnd].
  rewrite remove_duplicates_step_keep by done.
  rewrite IH, <- app_assoc; [done| |done].
  rewrite Forall_forall in Hall |- *. intros q Hq.
  destruct (Hall q Hq) as [? Hqd]. split; [done|].
  unfold odict.keys. rewrite fmap_app, elem_of_app. simpl.
  rewrite list_elem_of_singleton. intros [?|Heq]; [done|].
  apply Hp. rewrite list_elem_of_fmap. by exists q.
Qed.

Lemma remove_duplicates_distinct (l : list Patent) :
  Forall (λ p, pub p ≠ "") l → NoDup (pub <$> l) → remove_duplicates l = l.
Proof.
  intros Hall Hnd. unfold remove_duplicates.
  rewrite remove_duplicates_loop_distinct; [apply values_entries| |done].
  eapply Forall_impl; [exact Hall|]. intros p ?. split; [done|].
  by intros ?%elem_of_nil.
Qed.

Lemma remove_duplicates_kept (l : list Patent) :
  let out := remove_duplicates l in
  out `sublist_of` l ∧
  Forall (λ p, pub p ≠ "") out ∧
  NoDup (pub <$> out) ∧
  ∀ k, k ≠ "" →
       head (filter (λ q, pub q = k) out) = head (filter (λ q, pub q = k) l).
Proof.
  destruct (remove_duplicates_loop l odict.empty)
    as (kept & Hfold & Hsub & Hall & Hnd & Hfirst).
  unfold remove_duplicates. rewrite Hfold. simpl. rewrite values_entries.
  split; [done|]. split.
  { eapply Forall_impl; [exact Hall|]. by intros p []. }
  split; [done|]. intros k Hk. apply Hfirst; [done|]. by intros ?%elem_of_nil.
Qed.

End Dedup.


(** ** The country table *)

Lemma total_empty : total ∅ = 0%nat.
Proof. unfold total. by rewrite map_fold_empty. Qed.

Lemma total_insert_fresh (k : string) (v : nat) (d : gmap string nat) :
  d !! k = None → total (<[k := v]> d) = (v + total d)%nat.
Proof.
  intros H. unfold total. rewrite map_fold_insert_L; [done| |done].
  intros. lia.
Qed.

Lemma total_lookup (k : string) (v : nat) (d : gmap string nat) :
  d !! k = Some v → total d = (v + total (delete k d))%nat.
Proof.
  intros H. unfold total.
  rewrite (map_fold_delete_L _ _ k v d); [done| |done]. intros. lia.
Qed.

(** One more occurrence of [k] adds one to the sum of the table. *)
Lemma total_increment (k : string) (d : gmap string nat) :
  total (increment k d) = S (total d).
Proof.
  unfold increment. destruct (d !! k) as [v|] eqn:Hk; simpl.
  - rewrite <- insert_delete_eq, total_insert_fresh by apply lookup_delete_eq.
    rewrite (total_lookup k v d) by done. lia.
  - rewrite total_insert_fresh by done. lia.
Qed.

Lemma increment_lookup (k c : string) (d : gmap string nat) :
  default 0%nat (increment k d !! c) =
  ((if decide (k = c) then 1 else 0) + default 0 (d !! c))%nat.
Proof.
  unfold increment. destruct (decide (k = c)) as [->|Hne].
  - rewrite lookup_insert_eq. simpl. lia.
  - by rewrite lookup_insert_ne.
Qed.

Lemma increment_positive (k : string) (d : gmap string nat) :
  map_Forall (λ _ v, 0 < v)%nat d → map_Forall (λ _ v, 0 < v)%nat (increment k d).
Proof.
  intros H. unfold increment. apply map_Forall_insert_2; [lia | done].
Qed.

Lemma por_pais_step_counted d p :
  counted p →
  por_pais_step d p = increment (str_prefix 2 (get_publicationNumber p)) d.
Proof.
  unfold counted, por_pais_step. intros H. rewrite bool_decide_eq_true_2 by done.
  destruct (get_publicationNumber p); simpl in *; [lia | done].
Qed.

Lemma por_pais_step_skipped d p : ¬ counted p → por_pais_step d p = d.
Proof.
  unfold counted, por_pais_step. intros H.
  rewrite bool_decide_eq_false_2 by done. by rewrite andb_false_r.
Qed.


Lemma str_prefix_length (n : nat) : ∀ s,
  (n ≤ String.length s)%nat → String.length (str_prefix n s) = n.
Proof.
  induction n as [|n IH]; intros [|c s] Hn; simpl in *; try done; try lia.
  rewrite IH; [done | lia].
Qed.





(** ** Rules for the specifications *)

Local Open Scope py_scope.

Section Rules.
Context {W : Type}.
Implicit Types (P : State W → Prop) (E : BaseException → State W → Prop).

Lemma hoare_ret {A} P (a : A) (Q : A → State W → Prop) E :
  (∀ s, P s → Q a s) → hoare P (ret a) Q E.
Proof. intros H s Hs. by apply H. Qed.

Lemma hoare_bind {A B} P (m : M W A) (k : A → M W B)
    (Q' : A → State W → Prop) (Q : B → State W → Prop) E :
  hoare P m Q' E → (∀ a, hoare (Q' a) (k a) Q E) → hoare P (bind m k) Q E.
Proof.
  intros Hm Hk s Hs. unfold bind. specialize (Hm s Hs).
  destruct (m s) as [[e|a] s']; [done|]. by apply Hk.
Qed.

Lemma hoare_try {A} P (m : M W A) (h : Exception → M W A)
    (Q : A → State W → Prop) E' E :
  hoare P m Q E' →
  (∀ e : Exception, hoare (E' e) (h e) Q E) →
  (∀ b s, is_Exception b = false → E' b s → E b s) →
  hoare P (try_except m h) Q E.
Proof.
  intros Hm Hh Hpass s Hs. unfold try_except. specialize (Hm s Hs).
  destruct (m s) as [[[e| |code]|a] s']; [by apply Hh | | | done];
    by apply Hpass.
Qed.

Lemma hoare_weaken {A} P P' (m : M W A) (Q Q' : A → State W → Prop) E E' :
  hoare P' m Q' E' →
  (∀ s, P s → P' s) → (∀ a s, Q' a s → Q a s) → (∀ e s, E' e s → E e s) →
  hoare P m Q E.
Proof.
  intros Hm HP HQ HE s Hs. specialize (Hm s (HP s Hs)).
  destruct (m s) as [[e|a] s']; auto.
Qed.

Lemma hoare_never {A} P (m : M W A) (Q : A → State W → Prop) E :
  hoare P m Q (λ _ _, False) → hoare P m Q E.
Proof. intros H. eapply hoare_weaken; [exact H| | |]; done. Qed.

Lemma hoare_pure {A} (φ : Prop) P (m : M W A) (Q : A → State W → Prop) E :
  (φ → hoare P m Q E) → hoare (λ s, φ ∧ P s) m Q E.
Proof. intros H s [Hφ Hs]. by apply H. Qed.

(** A loop keeps what each of its iterations keeps. *)
Lemma hoare_for_each {A B} P (l : list A) (body : B → A → M W B) E :
  (∀ acc x, hoare P (body acc x) (λ _, P) E) →
  ∀ acc, hoare P (for_each l acc body) (λ _, P) E.
Proof.
  intros Hbody. induction l as [|x l IH]; intros acc; simpl.
  - by apply hoare_ret.
  - eapply hoare_bind; [apply Hbody | apply IH].
Qed.

End Rules.

(** ** The trace of a worker *)

Section Walk.
Context (ok : Status → Status → Prop) (good : Task → Prop)
  (allowed : Call → Prop) (reg0 : gmap string Task) (task_id : string).

Lemma walk_app q tr q' tr' q'' :
  walk ok good allowed reg0 task_id q tr q' →
  walk ok good allowed reg0 task_id q' tr' q'' →
  walk ok good allowed reg0 task_id q (tr ++ tr') q''.
Proof.
  induction 1; intros H'; simpl; [done | | |]; constructor; auto.
Qed.

Lemma walk_snoc_called q tr q' c :
  allowed c →
  walk ok good allowed reg0 task_id q tr q' →
  walk ok good allowed reg0 task_id q (tr ++ [Called c]) q'.
Proof.
  intros Hc H. eapply walk_app; [exact H|]. by repeat constructor.
Qed.

Lemma walk_snoc_write q tr task task' :
  ok (status task) (status task') →
  walk ok good allowed reg0 task_id q tr (status task) →
  walk ok good allowed reg0 task_id q
    (tr ++ [Write (<[task_id := task']> reg0)]) (status task').
Proof.
  intros Hok H. eapply walk_app; [exact H|]. by repeat constructor.
Qed.

Lemma walk_snoc_stage q tr task :
  good task →
  walk ok good allowed reg0 task_id q tr (status task) →
  walk ok good allowed reg0 task_id q
    (tr ++ [Stage (<[task_id := task]> reg0)]) (status task).
Proof.
  intros Hg H. eapply walk_app; [exact H|]. by repeat constructor.
Qed.

(** The calls of a walk are allowed ones. *)
Lemma walk_calls q tr q' :
  walk ok good allowed reg0 task_id q tr q' → Forall allowed (calls tr).
Proof.
  unfold calls. induction 1; simpl; try done. by constructor.
Qed.

(** The other tasks are as they were, in every registry of the trace. *)
Lemma walk_frame q tr q' other :
  other ≠ task_id →
  walk ok good allowed reg0 task_id q tr q' →
  Forall (λ a, status <$> reg0 !! other = Some a) (statuses other tr).
Proof.
  intros Hne. unfold statuses. induction 1; simpl; try done.
  - rewrite lookup_insert_ne by done.
    destruct (reg0 !! other) as [x|] eqn:Hx; simpl; [|done]. by constructor.
  - rewrite lookup_insert_ne by done.
    destruct (reg0 !! other) as [x|] eqn:Hx; simpl; [|done]. by constructor.
Qed.

(** The snapshots hold a task of [good]. *)
Lemma walk_snapshots q tr q' :
  walk ok good allowed reg0 task_id q tr q' →
  Forall (λ reg, ∃ task, reg = <[task_id := task]> reg0 ∧ good task)
    (snapshots tr).
Proof.
  unfold snapshots. induction 1; simpl; try done. constructor; eauto.
Qed.

End Walk.

(** ** Statuses in a trace *)

Lemma statuses_cons_some task_id ev reg task tr :
  registry_of ev = Some reg → reg !! task_id = Some task →
  statuses task_id (ev :: tr) = status task :: statuses task_id tr.
Proof. intros Hev Hreg. unfold statuses. simpl. by rewrite Hev; simpl; rewrite Hreg. Qed.

Lemma statuses_cons_called task_id c tr :
  statuses task_id (Called c :: tr) = statuses task_id tr.
Proof. done. Qed.

Lemma statuses_app task_id tr tr' :
  statuses task_id (tr ++ tr') = statuses task_id tr ++ statuses task_id tr'.
Proof. apply omap_app. Qed.

Lemma snapshots_app tr tr' : snapshots (tr ++ tr') = snapshots tr ++ snapshots tr'.
Proof. apply omap_app. Qed.

(** The statuses of the task move by [status_next], up to the last one. *)
Lemma walk_statuses good allowed reg0 task_id q tr q' :
  walk status_next good allowed reg0 task_id q tr q' →
  chain q (statuses task_id tr) ∧ last (q :: statuses task_id tr) = Some q'.
Proof.
  induction 1 as [|? ? ? ? ? ? IH|? ? ? ? ? ? IH|? ? ? ? ? ? ? IH].
  - done.
  - by rewrite statuses_cons_called.
  - destruct IH as [Hc Hl].
    erewrite statuses_cons_some; [|done|apply lookup_insert_eq].
    split; [done|]. by rewrite last_cons, Hl.
  - destruct IH as [Hc Hl]. subst q.
    erewrite statuses_cons_some; [|done|apply lookup_insert_eq].
    split; [by split; [left|]|]. by rewrite last_cons, Hl.
Qed.

(** ** The steps of the worker *)

Section Worker.
Context {W : Type} (env : Env W).
Context (ok : Status → Status → Prop) (good : Task → Prop)
  (allowed : Call → Prop) (reg0 : gmap string Task) (tr0 : list Event)
  (task_id : string) (q0 : Status) (base : Task → Prop).

Hypothesis ok_refl : ∀ a, ok a a.
Hypothesis ok_completed : ok running completed.
Hypothesis ok_failed : ok running failed.
Hypothesis base_status : ∀ v task, base task → base (with_status v task).
Hypothesis base_progress : ∀ v task, base task → base (with_progress v task).
Hypothesis good_running : ∀ task, in_status running base task → good task.
Hypothesis good_completed : ∀ r task,
  in_status running base task → good (with_result r (with_status completed task)).
Hypothesis good_failed : ∀ msg task,
  in_status running base task → good (with_error msg (with_status failed task)).
Hypothesis allowed_search : ∀ c, search_call c → allowed c.

Local Abbreviation R := (reached (W:=W) ok good allowed reg0 tr0 task_id q0).
Local Abbreviation Run := (in_status running base).
Local Abbreviation never := (λ (_ : BaseException) (_ : State W), False).

(** An assignment to a field of the task. *)
Lemma task_update_spec (P P' : Task → Prop) (upd : Task → Task) :
  (∀ task, P task → ok (status task) (status (upd task)) ∧ P' (upd task)) →
  hoare (R P) (task_update task_id upd) (λ _, R P') never.
Proof.
  intros H s (task & tr & Ht & Htr & Hw & HP).
  unfold task_update, tasks_setitem. rewrite Ht, lookup_insert_eq.
  rewrite insert_insert_eq. destruct (H task HP) as [Hok HP'].
  exists (upd task), (tr ++ [Write (<[task_id := upd task]> reg0)]). simpl.
  split; [done|]. split; [by rewrite Htr, app_assoc|].
  split; [by eapply walk_snoc_write | done].
Qed.

Lemma stage_spec (P : Task → Prop) :
  (∀ task, P task → good task) → hoare (R P) stage (λ _, R P) never.
Proof.
  intros H s (task & tr & Ht & Htr & Hw & HP). unfold stage. rewrite Ht.
  exists task, (tr ++ [Stage (<[task_id := task]> reg0)]). simpl.
  split; [done|]. split; [by rewrite Htr, app_assoc|].
  split; [apply walk_snoc_stage; auto | done].
Qed.

Lemma external_spec {A} (P : Task → Prop) (c : Call)
    (f : W → (BaseException + A) * W) :
  allowed c → hoare (R P) (external c f) (λ _, R P) (λ _, R P).
Proof.
  intros Hc s (task & tr & Ht & Htr & Hw & HP). unfold external.
  assert (R P (mkState (tasks s) (f (world s)).2 (trace s ++ [Called c]))).
  { exists task, (tr ++ [Called c]). simpl.
    split; [done|]. split; [by rewrite Htr, app_assoc|].
    split; [by apply walk_snoc_called | done]. }
  destruct (f (world s)) as [[e|a] w]; done.
Qed.

Lemma external_total_spec {A} (P : Task → Prop) (c : Call) (f : W → A * W) :
  allowed c → hoare (R P) (external_total c f) (λ _, R P) never.
Proof.
  intros Hc s (task & tr & Ht & Htr & Hw & HP). unfold external_total, external.
  destruct (f (world s)) as [a w]. exists task, (tr ++ [Called c]). simpl.
  split; [done|]. split; [by rewrite Htr, app_assoc|].
  split; [by apply walk_snoc_called | done].
Qed.

(** A progress note leaves a running task running. *)
Lemma progress_spec (E : BaseException → State W → Prop) (v : string) :
  hoare (R Run) (task_update task_id (with_progress v)) (λ _, R Run) E.
Proof.
  eapply hoare_weaken; [apply (task_update_spec Run Run)| | |]; try done.
  intros task [Hq Hb]. simpl. rewrite Hq. split; [apply ok_refl|].
  split; [done | by apply base_progress].
Qed.

Lemma stage_running_spec (E : BaseException → State W → Prop) :
  hoare (R Run) stage (λ _, R Run) E.
Proof.
  eapply hoare_weaken; [apply (stage_spec Run), good_running| | |]; done.
Qed.

Lemma call_spec {A} (c : Call) (f : W → (BaseException + A) * W) :
  allowed c → hoare (R Run) (external c f) (λ _, R Run) (λ _, R Run).
Proof. apply external_spec. Qed.

Lemma now_spec (E : BaseException → State W → Prop) :
  hoare (R Run) (now env) (λ _, R Run) E.
Proof.
  eapply hoare_weaken; [apply (external_total_spec Run)| | |]; try done.
  by apply allowed_search.
Qed.

Lemma ret_spec {A} (a : A) (E : BaseException → State W → Prop) :
  hoare (R Run) (ret a) (λ _, R Run) E.
Proof. by apply hoare_ret. Qed.

(** Lines 72-73. *)
Lemma start_spec (P0 : Task → Prop) :
  (∀ task, P0 task → ok (status task) running ∧ base task) →
  hoare (R P0) (start task_id) (λ _, R Run) never.
Proof.
  intros H0. unfold start.
  eapply hoare_bind; [apply (task_update_spec P0 Run)|intros ?].
  { intros task HP. destruct (H0 task HP). simpl. split; [done|].
    split; [done | by apply base_status]. }
  eapply hoare_bind; [apply progress_spec | intros ?].
  apply stage_running_spec.
Qed.

(** Lines 76-85. *)
Lemma prepare_spec (request : SearchRequest) :
  hoare (R Run) (prepare env request) (λ _, R Run) (λ _, R Run).
Proof.
  unfold prepare.
  eapply hoare_bind; [by apply call_spec, allowed_search | intros ?].
  eapply hoare_bind; [apply now_spec | intros d].
  eapply hoare_bind; [by apply call_spec, allowed_search | intros ?].
  apply ret_spec.
Qed.

(** Lines 94-109. *)
Lemma search_country_spec (request : SearchRequest) all_patents pais :
  hoare (R Run) (search_country env task_id request all_patents pais)
    (λ _, R Run) (λ _, R Run).
Proof.
  unfold search_country.
  eapply hoare_bind; [apply progress_spec | intros ?].
  eapply hoare_bind; [by apply call_spec, allowed_search | intros patents].
  apply ret_spec.
Qed.

(** Lines 87-114. *)
Lemma search_spec (request : SearchRequest) :
  hoare (R Run) (search env task_id request) (λ _, R Run) (λ _, R Run).
Proof.
  unfold search.
  eapply hoare_bind; [apply progress_spec | intros ?].
  eapply hoare_bind with (Q' := λ _, R Run).
  - assert (Hgeneral : hoare (R Run)
      (task_update task_id (with_progress "Executing general search...") ;;
       external (CallBuscarSimples (term request) (limit request))
         (buscar_patentes_simples env (term request) (limit request)))
      (λ _, R Run) (λ _, R Run)).
    { eapply hoare_bind; [apply progress_spec | intros ?].
      by apply call_spec, allowed_search. }
    destruct (countries request) as [[|pais rest]|]; try done.
    apply hoare_for_each. intros. apply search_country_spec.
  - intros all_patents.
    eapply hoare_bind; [apply stage_running_spec | intros ?]. apply ret_spec.
Qed.

(** Lines 71-114. *)
Lemma find_spec (P0 : Task → Prop) (request : SearchRequest) :
  (∀ task, P0 task → ok (status task) running ∧ base task) →
  hoare (R P0) (find env task_id request) (λ _, R Run) (λ _, R Run).
Proof.
  intros H0. unfold find.
  eapply hoare_bind; [by apply hoare_never, start_spec | intros ?].
  eapply hoare_bind; [apply prepare_spec | intros pasta].
  eapply hoare_bind; [apply search_spec | intros all_patents].
  apply ret_spec.
Qed.

(** Lines 116-126. *)
Lemma deduplicate_spec (all_patents : list Patent) :
  hoare (R Run) (deduplicate task_id all_patents)
    (λ patents_list s, patents_list = remove_duplicates all_patents ∧ R Run s)
    never.
Proof.
  unfold deduplicate.
  eapply hoare_bind; [apply progress_spec | intros ?].
  eapply hoare_bind; [apply stage_running_spec | intros ?].
  by apply hoare_ret.
Qed.

(** The two assignments of a completion, and the end of the step. *)
Lemma completion_spec (E : BaseException → State W → Prop) (r : PyDict)
    (shape : PyDict → Prop) :
  shape r →
  hoare (R Run)
    (task_update task_id (with_status completed) ;;
     task_update task_id (with_result r) ;;
     stage)
    (λ _, R (completed_with base shape)) E.
Proof.
  intros Hr. apply hoare_never.
  eapply hoare_bind;
    [apply (task_update_spec Run
              (λ task, ∃ task0, Run task0 ∧ task = with_status completed task0))
    |intros ?].
  { intros task [Hq Hb]. simpl. rewrite Hq. split; [done|]. by exists task. }
  eapply hoare_bind;
    [apply (task_update_spec _ (completed_with base shape)) | intros ?].
  { intros task (task0 & H0 & ->). simpl. split; [apply ok_refl|].
    by exists task0, r. }
  apply stage_spec. intros task (task0 & r' & H0 & _ & ->).
  by apply good_completed.
Qed.

(** Lines 128-135. *)
Lemma complete_empty_spec (E : BaseException → State W → Prop)
    (shape : PyDict → Prop) :
  shape empty_result →
  hoare (R Run) (complete_empty task_id)
    (λ _, R (completed_with base shape)) E.
Proof. apply completion_spec. Qed.

(** Lines 216-227. *)
Lemma complete_spec (E : BaseException → State W → Prop)
    (shape : PyDict → Prop) info stats patents_list pasta :
  shape (full_result info stats patents_list pasta) →
  hoare (R Run) (complete task_id info stats patents_list pasta)
    (λ _, R (completed_with base shape)) E.
Proof. apply completion_spec. Qed.

(** Lines 229-232. *)
Lemma execute_search_except_spec (e : Exception) :
  hoare (R Run) (execute_search_except task_id e)
    (λ _, R (failed_with base (str e))) never.
Proof.
  unfold execute_search_except.
  eapply hoare_bind;
    [apply (task_update_spec Run
              (λ task, ∃ task0, Run task0 ∧ task = with_status failed task0))
    |intros ?].
  { intros task [Hq Hb]. simpl. rewrite Hq. split; [done|]. by exists task. }
  eapply hoare_bind;
    [apply (task_update_spec _ (failed_with base (str e))) | intros ?].
  { intros task (task0 & H0 & ->). simpl. split; [apply ok_refl|].
    by exists task0. }
  apply stage_spec. intros task (task0 & H0 & ->). by apply good_failed.
Qed.

(** Lines 116-135, when no record is left. *)
Lemma conclude_empty_spec (E : BaseException → State W → Prop) request pasta
    all_patents :
  remove_duplicates all_patents = [] →
  hoare (R Run) (conclude env task_id request pasta all_patents)
    (λ _, R (completed_with base (eq empty_result))) E.
Proof.
  intros Hnil. unfold conclude.
  eapply hoare_bind; [apply hoare_never, deduplicate_spec|].
  intros patents_list. apply hoare_pure. intros ->.
  rewrite Hnil. simpl. by apply complete_empty_spec.
Qed.

(** From here on the worker may call every collaborator. *)
Hypothesis allowed_all : ∀ c, allowed c.

(** Lines 138-151: the step raises only what its [except] clause lets
    through. *)
Lemma enrich_spec (request : SearchRequest) (patents_list : list Patent) :
  hoare (R Run) (enrich env task_id request patents_list) (λ _, R Run)
    (λ e s, is_Exception e = false ∧ R Run s).
Proof.
  unfold enrich. eapply hoare_bind with (Q' := λ _, R Run).
  - destruct (get_details request && _); [|apply ret_spec].
    eapply hoare_bind; [apply progress_spec | intros ?].
    eapply hoare_try with (E' := λ _, R Run);
      [by apply call_spec | intros e | done].
    eapply hoare_bind; [apply progress_spec | intros ?]. apply ret_spec.
  - intros l. eapply hoare_bind; [apply stage_running_spec | intros ?].
    apply ret_spec.
Qed.

(** Lines 187-214. *)
Lemma persist_spec request pasta all_patents patents_list stats :
  hoare (R Run)
    (persist env task_id request pasta all_patents patents_list stats)
    (λ _, R Run) (λ _, R Run).
Proof.
  unfold persist.
  eapply hoare_bind; [apply progress_spec | intros ?].
  eapply hoare_bind; [by apply call_spec | intros agrupadas].
  eapply hoare_bind; [by apply call_spec | intros ?].
  eapply hoare_bind; [apply now_spec | intros d].
  eapply hoare_bind; [by apply call_spec | intros ?].
  eapply hoare_bind; [apply stage_running_spec | intros ?].
  apply ret_spec.
Qed.

(** Lines 137-227. *)
Lemma finish_spec request pasta all_patents patents_list :
  hoare (R Run) (finish env task_id request pasta all_patents patents_list)
    (λ _, R (completed_with base
               (λ r, ∃ info l, r = full_result info (statistics l) l pasta)))
    (λ _, R Run).
Proof.
  unfold finish.
  eapply hoare_bind.
  { eapply hoare_weaken; [apply enrich_spec| | |]; try done.
    by intros e s [_ Hs]. }
  intros l. eapply hoare_bind; [apply persist_spec | intros info].
  apply complete_spec. by exists info, l.
Qed.

(** Lines 116-227. *)
Lemma conclude_spec request pasta all_patents :
  hoare (R Run) (conclude env task_id request pasta all_patents)
    (λ _, R (completed_with base (result_shape all_patents pasta)))
    (λ _, R Run).
Proof.
  unfold conclude.
  eapply hoare_bind; [apply hoare_never, deduplicate_spec|].
  intros patents_list. apply hoare_pure. intros ->.
  destruct (decide (length (remove_duplicates all_patents) = 0%nat)) as [H0|H0].
  - apply complete_empty_spec.
    unfold result_shape. apply length_zero_iff_nil in H0.
    by rewrite decide_True.
  - eapply hoare_weaken; [apply finish_spec| | |]; try done.
    intros _ s (task & tr & Ht & Htr & Hw & task0 & r & Hrun & Hr & ->).
    exists (with_result r (with_status completed task0)), tr.
    repeat split; try done. exists task0, r. split; [done|]. split; [|done].
    unfold result_shape. rewrite decide_False; [done|].
    intros Hnil. by rewrite Hnil in H0.
Qed.

(** The body of the [try]: an exception leaves the task running. *)
Lemma execute_search_try_spec (P0 : Task → Prop) (request : SearchRequest) :
  (∀ task, P0 task → ok (status task) running ∧ base task) →
  hoare (R P0) (execute_search_try env task_id request)
    (λ _, R (outcome base)) (λ _, R Run).
Proof.
  intros H0. unfold execute_search_try.
  eapply hoare_bind; [by apply find_spec | intros [pasta all_patents]].
  eapply hoare_weaken; [apply conclude_spec| | |]; try done.
  intros _ s (task & tr & Ht & Htr & Hw & HP). exists task, tr.
  repeat split; try done. left. by exists all_patents, pasta.
Qed.

(** Lines 68-232: the worker returns with the task completed or failed,
    unless an exception that is not of class [Exception] passes through its
    [except] clause, which leaves the task running. *)
Lemma execute_search_spec (P0 : Task → Prop) (request : SearchRequest) :
  (∀ task, P0 task → ok (status task) running ∧ base task) →
  hoare (R P0) (execute_search env task_id request) (λ _, R (outcome base))
    (λ e s, is_Exception e = false ∧ R Run s).
Proof.
  intros H0. unfold execute_search.
  eapply hoare_try with (E' := λ _, R Run).
  - by apply execute_search_try_spec.
  - intros e. eapply hoare_weaken; [apply execute_search_except_spec| | |];
      try done.
    intros _ s (task & tr & Ht & Htr & Hw & HP). exists task, tr.
    repeat split; try done. right. by exists e.
  - done.
Qed.

End Worker.

(** ** Histories of statuses *)

Lemma status_next_refl a : status_next a a.
Proof. by left. Qed.

Lemma chain_app a l q l' :
  chain a l → last (a :: l) = Some q → chain q l' → chain a (l ++ l').
Proof.
  revert a. induction l as [|b l IH]; intros a Hc Hl Hc'.
  - simpl in Hl. by simplify_eq.
  - destruct Hc as [Hab Hc]. rewrite last_cons_cons in Hl.
    split; [done|]. by apply IH.
Qed.

Lemma last_app_cons {A} (a : A) (l l' : list A) q q' :
  last (a :: l) = Some q → last (q :: l') = Some q' →
  last (a :: l ++ l') = Some q'.
Proof.
  intros Hl Hl'. destruct l' as [|b l'].
  - rewrite app_nil_r. simpl in Hl'. by simplify_eq.
  - rewrite last_cons_cons in Hl'. rewrite app_comm_cons, last_app, Hl'. done.
Qed.

Lemma trail_extend l q l' q' :
  trail l (Some q) → chain q l' → last (q :: l') = Some q' →
  trail (l ++ l') (Some q').
Proof.
  intros [Hh Hl] Hc Hl'. destruct l as [|a l]; [done|].
  destruct Hh as [-> Hh]. split.
  - split; [done|]. by eapply chain_app.
  - simpl. by eapply last_app_cons.
Qed.

Lemma chain_stutter q l : Forall (λ a, q = a) l → chain q l ∧ last (q :: l) = Some q.
Proof.
  induction 1 as [|a l Ha _ IH]; [done|]. subst a. destruct IH as [IH1 IH2].
  split.
  - split; [apply status_next_refl | done].
  - by rewrite last_cons_cons.
Qed.

Lemma trail_stutter l cur l' :
  trail l cur → Forall (λ a, cur = Some a) l' → trail (l ++ l') cur.
Proof.
  intros Ht Hl'. destruct cur as [q|].
  - destruct (chain_stutter q l') as [Hc Hlast].
    { eapply Forall_impl; [exact Hl'|]. simpl. intros a Ha. congruence. }
    by eapply trail_extend.
  - destruct l' as [|a l']; [by rewrite app_nil_r|].
    by apply Forall_cons in Hl' as [? _].
Qed.

Lemma trail_none l : trail l None → l = [].
Proof.
  intros [_ Hl]. destruct l as [|a l]; [done|].
  by destruct (last_is_Some (a :: l)) as [_ [? ?]]; [|simplify_eq].
Qed.

(** A history, read without its repetitions, is a beginning of the walk. *)
Lemma chain_collapse l : ∀ a,
  chain a l →
  ∃ x, collapse (a :: l) `prefix_of`
         match a with
         | queued => [queued; running; x]
         | running => [running; x]
         | _ => [a]
         end ∧ (x = completed ∨ x = failed).
Proof.
  induction l as [|b l IH]; intros a Hc.
  - exists completed. split; [|by left]. simpl.
    destruct a; by eexists.
  - destruct Hc as [Hab Hc]. destruct (IH b Hc) as (x & Hx & Hxt).
    change (collapse (a :: b :: l))
      with (if decide (a = b) then collapse (b :: l) else a :: collapse (b :: l)).
    destruct Hab as [->|[[-> ->]|[-> [->| ->]]]].
    + rewrite decide_True by done. by exists x.
    + rewrite decide_False by done. exists x. split; [|done].
      by apply prefix_cons.
    + rewrite decide_False by done. exists completed. split; [|by left].
      by apply prefix_cons.
    + rewrite decide_False by done. exists failed. split; [|by right].
      by apply prefix_cons.
Qed.

Lemma history_forward_walk l : history l → forward_walk l.
Proof.
  destruct l as [|a l]; [intros _; left; by eexists|].
  intros [-> Hc]. destruct (chain_collapse l queued Hc) as (x & Hx & [->| ->]).
  - by left.
  - by right.
Qed.

(** ** The worker on a task that was just submitted *)

Lemma outcome_payload task :
  outcome no_payload task → terminal (status task) ∧ payload_ok task.
Proof.
  unfold payload_ok.
  intros [(all_patents & pasta & task0 & r & [Hq [Hr He]] & _ & ->)
         |(e & task0 & [Hq [Hr He]] & ->)]; simpl; rewrite ?Hr, ?He.
  - split; [by left|]. split; (split; [|intros ?]); done.
  - split; [by right|]. split; (split; [|intros ?]); done.
Qed.

Lemma payload_ok_running task : in_status running no_payload task → payload_ok task.
Proof.
  intros [Hq [Hr He]]. unfold payload_ok. rewrite Hq, Hr, He.
  split; (split; [by intros [? ?] | done]).
Qed.

Lemma payload_ok_completed r task :
  in_status running no_payload task →
  payload_ok (with_result r (with_status completed task)).
Proof.
  intros [Hq [Hr He]]. unfold payload_ok. simpl. rewrite He.
  split; (split; [|intros ?]); done.
Qed.

Lemma payload_ok_failed msg task :
  in_status running no_payload task →
  payload_ok (with_error msg (with_status failed task)).
Proof.
  intros [Hq [Hr He]]. unfold payload_ok. simpl. rewrite Hr.
  split; (split; [|intros ?]); done.
Qed.

Lemma execute_search_lifecycle {W} (env : Env W) task_id request s task0 :
  tasks s !! task_id = Some task0 → bare queued task0 →
  ∃ r s' task tr,
    execute_search env task_id request s = (r, s') ∧
    tasks s' = <[task_id := task]> (tasks s) ∧
    trace s' = trace s ++ tr ∧
    walk status_next payload_ok (λ _, True) (tasks s) task_id queued tr
      (status task) ∧
    payload_ok task ∧
    match r with
    | inr _ => terminal (status task)
    | inl e => is_Exception e = false ∧ status task = running
    end.
Proof.
  intros Ht H0.
  assert (Hspec : hoare
    (reached status_next payload_ok (λ _, True) (tasks s) (trace s) task_id
       queued (bare queued))
    (execute_search env task_id request)
    (λ _, reached status_next payload_ok (λ _, True) (tasks s) (trace s)
            task_id queued (outcome no_payload))
    (λ e s', is_Exception e = false ∧
       reached status_next payload_ok (λ _, True) (tasks s) (trace s)
         task_id queued (bare running) s')).
  { apply execute_search_spec; try done.
    - apply status_next_refl.
    - right. right. split; [done | by left].
    - right. right. split; [done | by right].
    - apply payload_ok_running.
    - apply payload_ok_completed.
    - apply payload_ok_failed.
    - intros task [Hq Hb]. rewrite Hq. split; [|done]. right. by left. }
  assert (Hs : reached status_next payload_ok (λ _, True) (tasks s) (trace s)
                 task_id queued (bare queued) s).
  { exists task0, []. rewrite app_nil_r.
    split; [by rewrite insert_id|]. split; [done|]. destruct H0 as [Hq ?].
    split; [|by split]. rewrite Hq. constructor. }
  specialize (Hspec s Hs). destruct (execute_search env task_id request s)
    as [[e|[]] s'].
  - destruct Hspec as (He & task & tr & Htasks & Htr & Hw & Hrun).
    exists (inl e), s', task, tr. repeat (split; [done|]).
    split; [by apply payload_ok_running|]. split; [done | by destruct Hrun].
  - destruct Hspec as (task & tr & Htasks & Htr & Hw & Hout).
    apply outcome_payload in Hout as [Hterm Hok].
    by exists (inr ()), s', task, tr.
Qed.

(** ** The server *)

Section Server.
Context {W : Type} (env : Env W).

(** What [POST /search] does to the state. *)
Lemma search_patents_run request background_tasks (s : State W) :
  let id := (uuid4 env (world s)).1 in
  let w := (datetime_now env (uuid4 env (world s)).2) in
  let task := mkTask id queued request (isoformat w.1) None None None in
  let reg := <[id := task]> (tasks s) in
  ∃ response,
    response_task_id response = id ∧
    response_status response = "queued" ∧
    search_patents env request background_tasks s =
    (inr (response, background_tasks ++ [(id, request)]),
     mkState reg w.2
       (trace s ++ [Called CallUuid4; Called CallNow; Write reg; Stage reg])).
Proof.
  simpl. unfold search_patents, now, external_total, external, bind, ret,
    tasks_setitem, stage. simpl.
  destruct (uuid4 env (world s)) as [id w1]. simpl.
  destruct (datetime_now env w1) as [d w2]. simpl.
  eexists. split; [|split]; [| |rewrite <- !app_assoc; reflexivity]; done.
Qed.

Lemma get_task_status_state task_id (s : State W) :
  (get_task_status task_id s).2 = s.
Proof. unfold get_task_status. by destruct (tasks s !! task_id). Qed.

Lemma list_tasks_state (s : State W) : (list_tasks s).2 = s.
Proof. done. Qed.

Lemma statuses_submitted id c1 c2 (reg : gmap string Task) :
  statuses id [Called c1; Called c2; Write reg; Stage reg] =
  from_option (λ task, [status task; status task]) [] (reg !! id).
Proof. unfold statuses. simpl. by destruct (reg !! id). Qed.

Lemma payload_ok_bare q task : bare q task → q = queued → payload_ok task.
Proof.
  intros [Hq [Hr He]] ->. unfold payload_ok. rewrite Hq, Hr, He.
  split; (split; [by intros [? ?] | done]).
Qed.

(** A scheduled worker waits for a task of the registry. *)
Lemma scheduled_in_registry (sys : System W) id :
  invariant sys → id ∈ (background sys).*1 →
  is_Some (tasks (state sys) !! id).
Proof.
  intros (_ & _ & _ & _ & I5) (job & -> & Hjob)%list_elem_of_fmap.
  rewrite Forall_forall in I5. destruct (I5 job Hjob) as (task & Ht & _).
  by exists task.
Qed.

Lemma invariant_boot (w : W) : invariant (boot w).
Proof.
  unfold invariant, boot. simpl. split; [|split; [|split; [|split]]].
  - intros id. by rewrite lookup_empty.
  - constructor.
  - apply map_Forall_empty.
  - constructor.
  - constructor.
Qed.

Lemma invariant_post_search (sys : System W) request :
  invariant sys →
  tasks (state sys) !! (uuid4 env (world (state sys))).1 = None →
  invariant (handle env (PostSearch request) sys).
Proof.
  intros Hinv Hfresh. pose proof Hinv as (I1 & I2 & I3 & I4 & I5).
  unfold handle.
  destruct (search_patents_run request [] (state sys)) as (resp & _ & _ & Hrun).
  rewrite Hrun. clear Hrun. simpl.
  set (id := (uuid4 env (world (state sys))).1) in *.
  set (task := mkTask id queued request _ None None None).
  assert (Hother : ∀ job, job ∈ background sys → job.1 ≠ id).
  { intros job Hjob Heq.
    destruct (scheduled_in_registry sys id Hinv) as [x Hx]; [|congruence].
    apply list_elem_of_fmap. by exists job. }
  assert (Hok : payload_ok task) by (by apply (payload_ok_bare queued)).
  unfold invariant. simpl. split; [|split; [|split; [|split]]].
  - intros id'. rewrite statuses_app, statuses_submitted.
    destruct (decide (id' = id)) as [->|Hne].
    + rewrite lookup_insert_eq. simpl.
      specialize (I1 id). rewrite Hfresh in I1. apply trail_none in I1.
      rewrite I1. split; [|done]. split; [done|]. split; [by left | done].
    + rewrite lookup_insert_ne by done. apply trail_stutter; [apply I1|].
      destruct (tasks (state sys) !! id') as [x|]; simpl; by repeat constructor.
  - rewrite snapshots_app. apply Forall_app. split; [done|].
    apply Forall_singleton. by apply map_Forall_insert_2.
  - by apply map_Forall_insert_2.
  - rewrite fmap_app. apply NoDup_app. split; [done|]. split.
    + intros x (job & -> & Hjob)%list_elem_of_fmap. simpl.
      rewrite list_elem_of_singleton. by apply Hother.
    + simpl. apply NoDup_singleton.
  - apply Forall_app. split.
    + rewrite Forall_forall in I5 |- *. intros job Hjob.
      rewrite lookup_insert_ne by (apply not_eq_sym; by apply Hother). by apply I5.
    + apply Forall_singleton. simpl. exists task. by rewrite lookup_insert_eq.
Qed.

(** The other workers are scheduled for other tasks. *)
Lemma delete_other_job (l : BackgroundTasks) i job job' :
  NoDup l.*1 → l !! i = Some job → job' ∈ delete i l → job'.1 ≠ job.1.
Proof.
  revert i. induction l as [|a l IH]; intros i Hnd Hi Hin; [done|].
  rewrite fmap_cons in Hnd. apply NoDup_cons in Hnd as [Ha Hnd].
  destruct i as [|i]; simpl in *.
  - simplify_eq. intros Heq. apply Ha. rewrite <- Heq.
    apply list_elem_of_fmap. by exists job'.
  - apply elem_of_cons in Hin as [->|Hin].
    + intros Heq. apply Ha. rewrite Heq. apply list_elem_of_fmap.
      exists job. split; [done|]. by eapply list_elem_of_lookup_2.
    + by eapply IH.
Qed.

Lemma sublist_fmap_fst (l l' : BackgroundTasks) :
  l `sublist_of` l' → l.*1 `sublist_of` l'.*1.
Proof.
  induction 1; simpl; [constructor | by apply sublist_skip | by apply sublist_cons].
Qed.

Lemma invariant_run_worker (sys : System W) i :
  invariant sys → invariant (handle env (RunWorker i) sys).
Proof.
  intros Hinv. pose proof Hinv as (I1 & I2 & I3 & I4 & I5).
  unfold handle. destruct (background sys !! i) as [[id request]|] eqn:Hi; [|done].
  pose proof (proj1 (Forall_forall _ _) I5 _ (list_elem_of_lookup_2 _ _ _ Hi))
    as (task0 & Ht0 & Hbare). simpl in Ht0.
  destruct (execute_search_lifecycle env id request (state sys) task0 Ht0 Hbare)
    as (r & s' & task & tr & Hrun & Htasks & Htr & Hwalk & Hok & _).
  rewrite Hrun. simpl.
  assert (Hsub : delete i (background sys) `sublist_of` background sys)
    by apply sublist_delete.
  unfold invariant. simpl. rewrite Htasks, Htr.
  split; [|split; [|split; [|split]]].
  - intros id'. rewrite statuses_app.
    destruct (decide (id' = id)) as [->|Hne].
    + rewrite lookup_insert_eq. simpl.
      destruct (walk_statuses _ _ _ _ _ _ _ Hwalk) as [Hc Hl].
      eapply trail_extend; [|exact Hc|exact Hl].
      specialize (I1 id). rewrite Ht0 in I1. simpl in I1.
      destruct Hbare as [Hq _]. by rewrite Hq in I1.
    + rewrite lookup_insert_ne by done. apply trail_stutter; [apply I1|].
      by eapply walk_frame.
  - rewrite snapshots_app. apply Forall_app. split; [done|].
    eapply Forall_impl; [by eapply walk_snapshots|].
    intros reg (x & -> & Hx). by apply map_Forall_insert_2.
  - by apply map_Forall_insert_2.
  - eapply sublist_NoDup; [exact I4|]. by apply sublist_fmap_fst.
  - rewrite Forall_forall in I5 |- *. intros job Hjob.
    rewrite lookup_insert_ne.
    + apply I5. by eapply elem_of_sublist.
    + apply not_eq_sym.
      by apply (delete_other_job (background sys) i (id, request) job).
Qed.

Lemma invariant_handle (sys : System W) op :
  invariant sys →
  match op with
  | PostSearch _ => tasks (state sys) !! (uuid4 env (world (state sys))).1 = None
  | _ => True
  end →
  invariant (handle env op sys).
Proof.
  intros Hinv Hfresh. destruct op as [request|id| |i].
  - by apply invariant_post_search.
  - unfold handle. rewrite get_task_status_state. by destruct sys.
  - unfold handle. rewrite list_tasks_state. by destruct sys.
  - by apply invariant_run_worker.
Qed.

Lemma invariant_run (ops : list Op) : ∀ sys : System W,
  invariant sys → fresh_uuids env ops sys → invariant (run env ops sys).
Proof.
  induction ops as [|op ops IH]; intros sys Hinv Hfresh; [done|].
  destruct Hfresh as [Hop Hfresh]. simpl. apply IH; [|done].
  by apply invariant_handle.
Qed.

End Server.

(** ** The life cycle of a task *)

(** C1.  Along every run of the server from its start (submissions, status
    and list queries, and the scheduled workers, in any order) in which
    [uuid4] returns new identifiers, the statuses that the registry has held
    for a task, read without repetitions, are a beginning of
    queued, running, completed or of queued, running, failed; and the last of
    them is the status that the registry holds now. *)
Theorem status_history_forward {W} (env : Env W) (w : W) (ops : list Op)
    (id : string) :
  fresh_uuids env ops (boot w) →
  let s := state (run env ops (boot w)) in
  forward_walk (statuses id (trace s)) ∧
  last (statuses id (trace s)) = status <$> tasks s !! id.
Proof.
  intros Hfresh.
  destruct (invariant_run env ops (boot w) (invariant_boot w) Hfresh)
    as (I1 & _).
  destruct (I1 id) as [Hh Hl]. split; [by apply history_forward_walk | done].
Qed.

(** C2.  Along every such run, in the registry as it stands at the end of
    each step of a worker and of each submission, and in the registry at the
    end of the run, every task has a result payload exactly when its status
    is completed and an error message exactly when its status is failed. *)
Theorem payload_matches_status {W} (env : Env W) (w : W) (ops : list Op) :
  fresh_uuids env ops (boot w) →
  let s := state (run env ops (boot w)) in
  (∀ reg id task,
     reg ∈ snapshots (trace s) ++ [tasks s] → reg !! id = Some task →
     (is_Some (result task) ↔ status task = completed) ∧
     (is_Some (error task) ↔ status task = failed)).
Proof.
  intros Hfresh.
  destruct (invariant_run env ops (boot w) (invariant_boot w) Hfresh)
    as (_ & I2 & I3 & _).
  simpl. intros reg id task Hreg Hid.
  apply elem_of_app in Hreg as [Hreg|Hreg%list_elem_of_singleton].
  - rewrite Forall_forall in I2. by apply (I2 reg Hreg id task).
  - subst reg. by apply (I3 id task).
Qed.

Lemma status_history_forward_witness :
  fresh_uuids Demo.env Demo.session (boot Demo.two_countries) ∧
  let s := state (run Demo.env Demo.session (boot Demo.two_countries)) in
  forward_walk (statuses "id-1" (trace s)) ∧
  last (statuses "id-1" (trace s)) = status <$> tasks s !! "id-1".
Proof.
  assert (H : fresh_uuids Demo.env Demo.session (boot Demo.two_countries))
    by (vm_compute; tauto).
  split; [exact H|].
  exact (status_history_forward Demo.env Demo.two_countries Demo.session "id-1" H).
Defined.

Lemma payload_matches_status_witness :
  fresh_uuids Demo.env Demo.session (boot Demo.two_countries) ∧
  let s := state (run Demo.env Demo.session (boot Demo.two_countries)) in
  ∀ reg id task,
    reg ∈ snapshots (trace s) ++ [tasks s] → reg !! id = Some task →
    (is_Some (result task) ↔ status task = completed) ∧
    (is_Some (error task) ↔ status task = failed).
Proof.
  assert (H : fresh_uuids Demo.env Demo.session (boot Demo.two_countries))
    by (vm_compute; tauto).
  split; [exact H|].
  exact (payload_matches_status Demo.env Demo.two_countries Demo.session H).
Defined.


(** ** The worker on any task of the registry *)

Section AnyTask.
Context {W : Type} (env : Env W) (allowed : Call → Prop) (base : Task → Prop).

Hypothesis base_status : ∀ v task, base task → base (with_status v task).
Hypothesis base_progress : ∀ v task, base task → base (with_progress v task).

Local Abbreviation Reached s0 task_id task0 :=
  (reached (W:=W) (λ _ _, True) (λ _, True) allowed (tasks s0) (trace s0)
     task_id (status task0)).

Lemma reached_start (s : State W) task_id task0 :
  tasks s !! task_id = Some task0 → base task0 →
  Reached s task_id task0 base s.
Proof.
  intros Ht Hb. exists task0, []. rewrite app_nil_r.
  split; [by rewrite insert_id|]. split; [done|]. split; [constructor | done].
Qed.

Lemma reached_lookup (s0 s : State W) task_id task0 (P : Task → Prop) :
  Reached s0 task_id task0 P s →
  ∃ task tr,
    tasks s !! task_id = Some task ∧ P task ∧
    trace s = trace s0 ++ tr ∧ Forall allowed (calls tr).
Proof.
  intros (task & tr & Ht & Htr & Hw & HP). exists task, tr.
  rewrite Ht, lookup_insert_eq. repeat split; try done.
  by eapply walk_calls.
Qed.

(** Lines 71-114 leave the task running, whether they raise or not. *)
Lemma find_running (s : State W) task_id task0 request :
  (∀ c, search_call c → allowed c) →
  tasks s !! task_id = Some task0 → base task0 →
  Reached s task_id task0 (in_status running base)
    (find env task_id request s).2.
Proof.
  intros Hsearch Ht Hb.
  assert (Hspec : hoare (Reached s task_id task0 base)
    (find env task_id request)
    (λ _, Reached s task_id task0 (in_status running base))
    (λ _, Reached s task_id task0 (in_status running base)))
    by (apply find_spec; done).
  specialize (Hspec s (reached_start s task_id task0 Ht Hb)).
  by destruct (find env task_id request s) as [[e|found] s1].
Qed.

(** The handler marks a running task as failed, with the message. *)
Lemma execute_search_except_failed (s0 s1 : State W) task_id task0 e :
  Reached s0 task_id task0 (in_status running base) s1 →
  ∃ s',
    execute_search_except task_id e s1 = (inr (), s') ∧
    Reached s0 task_id task0 (failed_with base (str e)) s'.
Proof.
  intros H1.
  assert (Hspec : hoare (Reached s0 task_id task0 (in_status running base))
    (execute_search_except task_id e)
    (λ _, Reached s0 task_id task0 (failed_with base (str e)))
    (λ _ _, False))
    by (apply execute_search_except_spec; done).
  specialize (Hspec s1 H1).
  destruct (execute_search_except task_id e s1) as [[e'|[]] s']; [done|].
  by exists s'.
Qed.

End AnyTask.

(** What [execute_search] does after [find]. *)
Lemma execute_search_found {W} (env : Env W) task_id request (s s1 : State W)
    found :
  find env task_id request s = (inr found, s1) →
  execute_search env task_id request s =
  try_except (conclude env task_id request found.1 found.2)
    (execute_search_except task_id) s1.
Proof.
  intros H. unfold execute_search, execute_search_try, try_except, bind.
  by rewrite H.
Qed.

Lemma execute_search_not_found {W} (env : Env W) task_id request
    (s s1 : State W) e :
  find env task_id request s = (inl e, s1) →
  execute_search env task_id request s =
  match e with
  | of_Exception e' => execute_search_except task_id e' s1
  | _ => (inl e, s1)
  end.
Proof.
  intros H. unfold execute_search, execute_search_try, try_except, bind.
  rewrite H. by destruct e.
Qed.

(** ** Exceptions in the worker *)




(** The message of a [KeyError] is its key, quoted. *)
Example str_KeyError :
  str (KeyError "id-1") = "'id-1'" ∧
  str (KeyError "it's") = String double_quote ("it's" +:+ String double_quote "") ∧
  str (KeyError (String "a" (String "010" "b"))) = String "'" ("a\nb" +:+ "'").
Proof. vm_compute. done. Qed.

(** When the search collaborator raises, the task fails with its message. *)
Example search_down_fails :
  let task := Demo.task_after
    [PostSearch (Demo.aspirin (Some ["US"]) 5 false); RunWorker 0]
    Demo.search_down "id-1" in
  status <$> task = Some failed ∧
  task ≫= error = Some "connection refused" ∧
  task ≫= result = None.
Proof. vm_compute. done. Qed.

(** ** A search that finds nothing *)

(** C5.  For every run whose search returns records of which none is left
    after de-duplication, the worker returns and leaves the task completed,
    with the payload of three keys whose list of patents is empty and which
    has no statistics, and with the error it had before (none, for a task
    that was just submitted); and the run calls the collaborators of the
    search only: neither the details, nor the grouping, nor the writing of a
    file. *)
Theorem empty_search_completes {W} (env : Env W) task_id request
    (s s1 : State W) pasta all_patents task0 :
  tasks s !! task_id = Some task0 →
  find env task_id request s = (inr (pasta, all_patents), s1) →
  remove_duplicates all_patents = [] →
  ∃ s' task tr,
    execute_search env task_id request s = (inr (), s') ∧
    tasks s' !! task_id = Some task ∧
    status task = completed ∧
    result task = Some empty_result ∧
    error task = error task0 ∧
    dict_get "patents" empty_result = Some (VPatents []) ∧
    dict_get "statistics" empty_result = None ∧
    trace s' = trace s ++ tr ∧
    Forall search_call (calls tr).
Proof.
  intros Ht Hfind Hnil.
  pose (base := λ task, error task = error task0).
  assert (H1 : reached (λ _ _, True) (λ _, True) search_call (tasks s)
                 (trace s) task_id (status task0) (in_status running base)
                 (find env task_id request s).2)
    by (by apply find_running).
  rewrite Hfind in H1. simpl in H1.
  rewrite (execute_search_found env task_id request s s1 _ Hfind). simpl.
  assert (Hspec : hoare
    (reached (λ _ _, True) (λ _, True) search_call (tasks s) (trace s) task_id
       (status task0) (in_status running base))
    (conclude env task_id request pasta all_patents)
    (λ _, reached (λ _ _, True) (λ _, True) search_call (tasks s) (trace s)
            task_id (status task0)
            (completed_with base (eq empty_result)))
    (λ _ _, False))
    by (apply conclude_empty_spec; done).
  specialize (Hspec s1 H1). unfold try_except.
  destruct (conclude env task_id request pasta all_patents s1)
    as [[e|[]] s']; [done|].
  apply reached_lookup in Hspec
    as (task & tr & Hlook & (x & r & [_ Hx] & <- & ->) & Htr & Hcalls).
  exists s', (with_result empty_result (with_status completed x)), tr.
  repeat split; done.
Qed.

Lemma empty_search_completes_witness :
  let request := Demo.aspirin None 5 true in
  let s := Demo.submitted request Demo.nameless in
  ∃ task0 pasta all_patents s1,
    tasks s !! "id-1" = Some task0 ∧
    find Demo.env "id-1" request s = (inr (pasta, all_patents), s1) ∧
    length all_patents = 2%nat ∧
    remove_duplicates all_patents = [] ∧
    ∃ s' task tr,
      execute_search Demo.env "id-1" request s = (inr (), s') ∧
      tasks s' !! "id-1" = Some task ∧
      status task = completed ∧
      result task = Some empty_result ∧
      error task = error task0 ∧
      dict_get "patents" empty_result = Some (VPatents []) ∧
      dict_get "statistics" empty_result = None ∧
      trace s' = trace s ++ tr ∧
      Forall search_call (calls tr).
Proof.
  simpl. eexists _, _, _, _.
  split; [vm_compute; reflexivity|].
  split; [vm_compute; reflexivity|].
  split; [vm_compute; reflexivity|].
  split; [vm_compute; reflexivity|].
  eapply (empty_search_completes Demo.env); vm_compute; reflexivity.
Defined.

(** ** The two payloads of a completed task *)

(** C10.  For every task of the registry that its worker leaves completed,
    the search has returned, and the payload has one of two sets of keys:
    when no record is left after de-duplication, exactly message, total_found
    and patents, so that [result["total_patents"]] and
    [result["statistics"]] raise [KeyError], and search_info and files are
    missing too; otherwise exactly search_info, statistics, total_patents,
    patents and files. *)
Theorem completed_result_shapes {W} (env : Env W) task_id request
    (s s' : State W) task :
  is_Some (tasks s !! task_id) →
  execute_search env task_id request s = (inr (), s') →
  tasks s' !! task_id = Some task →
  status task = completed →
  ∃ pasta all_patents s1 r,
    find env task_id request s = (inr (pasta, all_patents), s1) ∧
    result task = Some r ∧
    (remove_duplicates all_patents = [] →
       dict_keys r = ["message"; "total_found"; "patents"] ∧
       dict_getitem "total_patents" r = inl (KeyError "total_patents") ∧
       dict_getitem "statistics" r = inl (KeyError "statistics") ∧
       dict_get "search_info" r = None ∧
       dict_get "files" r = None) ∧
    (remove_duplicates all_patents ≠ [] →
       dict_keys r =
       ["search_info"; "statistics"; "total_patents"; "patents"; "files"]).
Proof.
  intros [task0 Ht] Hrun Hlook Hq.
  pose (Reached := reached (W:=W) (λ _ _, True) (λ _, True) (λ _, True)
                     (tasks s) (trace s) task_id (status task0)).
  assert (H1 : Reached (in_status running (λ _, True))
                 (find env task_id request s).2)
    by (by apply find_running).
  assert (Hfailed : ∀ e s1,
    Reached (in_status running (λ _, True)) s1 →
    execute_search_except task_id e s1 = (inr (), s') → False).
  { intros e s1 Hs1 Hexc.
    assert (∃ s'', execute_search_except task_id e s1 = (inr (), s'') ∧
              Reached (failed_with (λ _, True) (str e)) s'')
      as (s'' & Hrun' & Hs'')
      by (eapply execute_search_except_failed; try exact Hs1; done).
    rewrite Hexc in Hrun'. simplify_eq.
    apply reached_lookup in Hs'' as (x & tr & Hx & (y & _ & ->) & _).
    rewrite Hlook in Hx. by simplify_eq. }
  destruct (find env task_id request s) as [[e|[pasta all_patents]] s1] eqn:Hfind.
  { rewrite (execute_search_not_found env _ _ _ _ _ Hfind) in Hrun.
    destruct e as [e| |code]; [by destruct (Hfailed e s1) | done | done]. }
  rewrite (execute_search_found env _ _ _ _ _ Hfind) in Hrun.
  unfold try_except in Hrun. simpl in Hrun, H1.
  assert (Hspec : hoare (Reached (in_status running (λ _, True)))
    (conclude env task_id request pasta all_patents)
    (λ _, Reached (completed_with (λ _, True)
                     (result_shape all_patents pasta)))
    (λ _, Reached (in_status running (λ _, True))))
    by (apply conclude_spec; done).
  specialize (Hspec s1 H1).
  destruct (conclude env task_id request pasta all_patents s1) as [[e|[]] s2].
  { destruct e as [e| |code]; [by destruct (Hfailed e s2) | done | done]. }
  simplify_eq.
  apply reached_lookup in Hspec as (x & tr & Hx & (y & r & _ & Hr & ->) & _).
  rewrite Hlook in Hx. simplify_eq.
  exists pasta, all_patents, s1, r. split; [done|]. split; [done|].
  unfold result_shape in Hr.
  destruct (decide (remove_duplicates all_patents = [])) as [Hnil|Hnil].
  - subst r. split; [done|]. by intros ?.
  - destruct Hr as (info & l & ->). split; [by intros ?|done].
Qed.

Lemma completed_result_shapes_witness :
  let request := Demo.aspirin None 5 true in
  let s := Demo.submitted request Demo.nameless in
  ∃ s' task,
    is_Some (tasks s !! "id-1") ∧
    execute_search Demo.env "id-1" request s = (inr (), s') ∧
    tasks s' !! "id-1" = Some task ∧
    status task = completed ∧
    ∃ pasta all_patents s1 r,
      find Demo.env "id-1" request s = (inr (pasta, all_patents), s1) ∧
      result task = Some r ∧
      (remove_duplicates all_patents = [] →
         dict_keys r = ["message"; "total_found"; "patents"] ∧
         dict_getitem "total_patents" r = inl (KeyError "total_patents") ∧
         dict_getitem "statistics" r = inl (KeyError "statistics") ∧
         dict_get "search_info" r = None ∧
         dict_get "files" r = None) ∧
      (remove_duplicates all_patents ≠ [] →
         dict_keys r =
         ["search_info"; "statistics"; "total_patents"; "patents"; "files"]).
Proof.
  simpl. eexists _, _.
  split; [vm_compute; eauto|].
  split; [vm_compute; reflexivity|].
  split; [vm_compute; reflexivity|].
  split; [vm_compute; reflexivity|].
  eapply (completed_result_shapes Demo.env);
    [vm_compute; eauto | vm_compute; reflexivity ..].
Defined.

(** ** Running the steps *)

(** One step of evaluation of the monad, up to the next lookup in the
    registry or the next call. *)
Ltac run :=
  cbv beta iota delta [bind try_except external external_total stage ret
                       task_update tasks_setitem now];
  cbn [tasks world trace fst snd].

Section Runs.
Context {W : Type} (env : Env W).

Lemma bind_inr {A B} (m : M W A) (k : A → M W B) s a s1 :
  m s = (inr a, s1) → bind m k s = k a s1.
Proof. intros H. unfold bind. by rewrite H. Qed.

Lemma bind_inl {A B} (m : M W A) (k : A → M W B) s e s1 :
  m s = (inl e, s1) → bind m k s = (inl e, s1).
Proof. intros H. unfold bind. by rewrite H. Qed.

Lemma task_update_run (s : State W) task_id x upd :
  tasks s !! task_id = Some x →
  task_update task_id upd s =
  (inr (),
   mkState (<[task_id := upd x]> (tasks s)) (world s)
     (trace s ++ [Write (<[task_id := upd x]> (tasks s))])).
Proof. intros H. unfold task_update. by rewrite H. Qed.


Lemma deduplicate_run (s : State W) task_id all_patents x :
  tasks s !! task_id = Some x →
  ∃ s',
    deduplicate task_id all_patents s = (inr (remove_duplicates all_patents), s') ∧
    tasks s' !! task_id =
      Some (with_progress
              ("Found " +:+ pretty (length (remove_duplicates all_patents)) +:+
               " unique patents") x) ∧
    world s' = world s.
Proof.
  intros Ht. unfold deduplicate. eexists. split; [|split].
  - run. rewrite Ht. run. reflexivity.
  - cbn [tasks]. by rewrite lookup_insert_eq.
  - done.
Qed.

(** Without a request for details the list is left as it is. *)
Lemma enrich_skipped (s : State W) task_id request patents_list x :
  tasks s !! task_id = Some x →
  get_details request = false →
  ∃ s',
    enrich env task_id request patents_list s = (inr patents_list, s') ∧
    tasks s' !! task_id = Some x ∧ world s' = world s.
Proof.
  intros Ht Hd. unfold enrich. rewrite Hd. simpl. eexists. split; [|split].
  - run. reflexivity.
  - done.
  - done.
Qed.

(** Lines 187-214, when the grouping and the two files succeed. *)
Lemma persist_succeeds (s : State W) task_id request pasta all_patents
    patents_list stats x g w1 w2 d w3 w4 :
  let info := search_info request d all_patents patents_list in
  tasks s !! task_id = Some x →
  agrupar_por_publication_number env patents_list (world s) = (inr g, w1) →
  json_dump env (json_file pasta) g w1 = (inr (), w2) →
  datetime_now env w2 = (d, w3) →
  json_dump env (summary_file pasta)
    (VDict (summary info stats patents_list)) w3 = (inr (), w4) →
  ∃ s',
    persist env task_id request pasta all_patents patents_list stats s =
      (inr info, s') ∧
    tasks s' !! task_id = Some (with_progress "Saving results..." x) ∧
    world s' = w4.
Proof.
  intros info Ht Hg H1 Hd H2. unfold persist. eexists. split; [|split].
  - run. rewrite Ht. run. rewrite Hg. run. rewrite H1. run. rewrite Hd. run.
    fold info. rewrite H2. run. reflexivity.
  - cbn [tasks]. by rewrite lookup_insert_eq.
  - done.
Qed.

(** Lines 216-227. *)
Lemma complete_run (s : State W) task_id info stats patents_list pasta x :
  tasks s !! task_id = Some x →
  ∃ s',
    complete task_id info stats patents_list pasta s = (inr (), s') ∧
    tasks s' !! task_id =
      Some (with_result (full_result info stats patents_list pasta)
              (with_status completed x)) ∧
    world s' = world s.
Proof.
  intros Ht. unfold complete. eexists. split; [|split].
  - run. rewrite Ht. run. rewrite lookup_insert_eq. run. reflexivity.
  - cbn [tasks]. by rewrite insert_insert_eq, lookup_insert_eq.
  - done.
Qed.

(** The rest of the pipeline, from a list of patents on, when the grouping
    and the two files succeed. *)
Lemma persist_complete_succeeds (s : State W) task_id request pasta
    all_patents patents_list x g w1 w2 d w3 w4 :
  let stats := statistics patents_list in
  let info := search_info request d all_patents patents_list in
  tasks s !! task_id = Some x →
  agrupar_por_publication_number env patents_list (world s) = (inr g, w1) →
  json_dump env (json_file pasta) g w1 = (inr (), w2) →
  datetime_now env w2 = (d, w3) →
  json_dump env (summary_file pasta)
    (VDict (summary info stats patents_list)) w3 = (inr (), w4) →
  ∃ s',
    (info <- persist env task_id request pasta all_patents patents_list stats ;;
     complete task_id info stats patents_list pasta) s = (inr (), s') ∧
    tasks s' !! task_id =
      Some (with_result (full_result info stats patents_list pasta)
              (with_status completed (with_progress "Saving results..." x))) ∧
    world s' = w4.
Proof.
  intros stats info Ht Hg H1 Hd H2.
  destruct (persist_succeeds s task_id request pasta all_patents patents_list
              stats x g w1 w2 d w3 w4 Ht Hg H1 Hd H2) as (s1 & Hp & Ht1 & Hw1).
  destruct (complete_run s1 task_id info stats patents_list pasta _ Ht1)
    as (s' & Hc & Ht' & Hw').
  exists s'. split; [|split; [done | congruence]].
  by rewrite (bind_inr _ _ _ _ _ Hp).
Qed.

End Runs.

(** ** A failure of the details *)



(** ** The results directory *)

Local Open Scope nat_scope.
























(** ** One search per country *)

Section Countries.
Context {W : Type} (env : Env W) (task_id : string) (request : SearchRequest).

Local Abbreviation call_of pais :=
  (CallBuscar (term request) "all" pais (limit request)).
Local Abbreviation returned pais batch :=
  (∃ w w', buscar_patentes env (term request) "all" pais (limit request) w =
           (inr batch, w')).

Lemma calls_write reg tr : calls (Write reg :: tr) = calls tr.
Proof. done. Qed.

Lemma calls_called c tr : calls (Called c :: tr) = c :: calls tr.
Proof. done. Qed.

(** The loop of lines 94-109, when no search raises. *)
Lemma search_countries_run (cs : list string) : ∀ acc (s s' : State W) all,
  is_Some (tasks s !! task_id) →
  for_each cs acc (search_country env task_id request) s = (inr all, s') →
  ∃ tr batches,
    trace s' = trace s ++ tr ∧
    calls tr = (λ pais, call_of pais) <$> cs ∧
    Forall2 (λ pais batch, returned pais batch) cs batches ∧
    all = acc ++ tagged cs batches ∧
    is_Some (tasks s' !! task_id).
Proof.
  induction cs as [|pais cs IH]; intros acc s s' all [x Hx] Hrun.
  - injection Hrun as <- <-. exists [], []. rewrite !app_nil_r.
    repeat split; eauto.
  - cbn [for_each] in Hrun. unfold search_country in Hrun at 1.
    revert Hrun. run. rewrite Hx. run.
    destruct (buscar_patentes env (term request) "all" pais (limit request)
                (world s)) as [[e|batch] w] eqn:Hcall; run; [done|].
    intros Hrun. apply IH in Hrun as (tr & batches & Htr & Hcalls & Hret & -> & Hin).
    2:{ cbn [tasks]. rewrite lookup_insert_eq. eauto. }
    cbn [trace] in Htr.
    eexists (_ :: _ :: tr), (batch :: batches).
    split; [by rewrite Htr, <- !app_assoc|].
    split; [by rewrite calls_write, calls_called, Hcalls|].
    split; [constructor; eauto|].
    split; [|done]. unfold tagged. simpl. by rewrite <- app_assoc.
Qed.

Lemma tagged_length (cs : list string) : ∀ batches,
  length cs = length batches →
  length (tagged cs batches) = sum_list (length <$> batches).
Proof.
  unfold tagged. induction cs as [|pais cs IH]; intros [|b batches] Hlen;
    simpl in *; try done.
  rewrite length_app, length_fmap, IH by lia. done.
Qed.

Lemma sum_list_bound (n : nat) (l : list nat) :
  Forall (λ a, a ≤ n) l → sum_list l ≤ length l * n.
Proof. induction 1; simpl; lia. Qed.

Lemma calls_app tr tr' : calls (tr ++ tr') = calls tr ++ calls tr'.
Proof. apply omap_app. Qed.

(** Lines 87-114 with country filters, when no search raises. *)
Lemma search_by_country_run (cs : list string) (s s' : State W) all :
  countries request = Some cs → cs ≠ [] →
  is_Some (tasks s !! task_id) →
  search env task_id request s = (inr all, s') →
  ∃ tr batches,
    trace s' = trace s ++ tr ∧
    calls tr = (λ pais, call_of pais) <$> cs ∧
    Forall2 (λ pais batch, returned pais batch) cs batches ∧
    all = tagged cs batches.
Proof.
  intros Hcs Hne [x Hx]. unfold search. rewrite Hcs.
  destruct cs as [|pais rest]; [done|]. run. rewrite Hx. run.
  destruct (for_each (pais :: rest) [] (search_country env task_id request) _)
    as [[e|all'] s1] eqn:Hloop; run; [done|].
  intros [= <- <-].
  apply search_countries_run in Hloop
    as (tr & batches & Htr & Hcalls & Hret & -> & _).
  2:{ cbn [tasks]. rewrite lookup_insert_eq. eauto. }
  cbn [trace] in Htr.
  eexists (_ :: tr ++ [_]), batches.
  split; [by rewrite Htr, <- !app_assoc|].
  split; [|done].
  rewrite calls_write, calls_app, Hcalls. cbn. by rewrite app_nil_r.
Qed.

End Countries.

(** ** More patents than the limit *)

Section CounterRun.
Context (task_id : string) (lim : Z).

Local Abbreviation number i := (String "P" (Counter.xs i)).

Lemma xs_length (n : nat) : String.length (Counter.xs n) = n.
Proof. induction n as [|n IH]; simpl; [done | by rewrite IH]. Qed.

Lemma number_inj : Inj (=) (=) (λ i, number i).
Proof.
  intros i j [= H]. apply (f_equal String.length) in H.
  by rewrite !xs_length in H.
Qed.

Lemma start_run {W} (s : State W) x :
  tasks s !! task_id = Some x →
  ∃ s',
    start task_id s = (inr (), s') ∧
    tasks s' !! task_id =
      Some (with_progress "Initializing scraper..." (with_status running x)) ∧
    world s' = world s.
Proof.
  intros Hx. unfold start. eexists. split; [|split].
  - run. rewrite Hx. run. rewrite lookup_insert_eq. run. reflexivity.
  - cbn [tasks]. by rewrite insert_insert_eq, lookup_insert_eq.
  - done.
Qed.

(** The loop with the collaborator that always finds new patents. *)
Lemma counter_loop (request : SearchRequest) (cs : list string) :
  limit request = lim →
  ∀ acc (s : State nat) x,
    tasks s !! task_id = Some x →
    ∃ s' x' l,
      for_each cs acc (search_country Counter.env task_id request) s =
        (inr (acc ++ l), s') ∧
      tasks s' !! task_id = Some x' ∧
      world s' = world s + length cs * Z.to_nat lim ∧
      get_publicationNumber <$> l =
        (λ i, number i) <$> seq (world s) (length cs * Z.to_nat lim).
Proof.
  intros Hlim. induction cs as [|pais cs IH]; intros acc s x Hx.
  - exists s, x, []. rewrite app_nil_r. simpl. repeat split; [done | lia].
  - cbn [for_each]. unfold search_country at 1. run. rewrite Hx. run.
    cbn [buscar_patentes Counter.env]. unfold Counter.next. run. rewrite Hlim.
    edestruct (IH (acc ++ (set_pais_filtro pais <$>
                             (Counter.numbered <$> seq (world s) (Z.to_nat lim))))
                 (mkState (<[task_id := with_progress
                               ("Searching in " +:+ pais +:+ "...") x]> (tasks s))
                    (world s + Z.to_nat lim)
                    ((trace s ++ [Write (<[task_id := with_progress
                               ("Searching in " +:+ pais +:+ "...") x]> (tasks s))])
                     ++ [Called (CallBuscar (term request) "all" pais lim)])))
      as (s' & x' & l & Hrun & Hx' & Hw & Hl).
    { cbn [tasks]. apply lookup_insert_eq. }
    cbn [world] in Hw, Hl.
    exists s', x',
      ((set_pais_filtro pais <$>
          (Counter.numbered <$> seq (world s) (Z.to_nat lim))) ++ l).
    split; [by rewrite Hrun, <- app_assoc|]. split; [done|].
    split; [simpl; lia|].
    rewrite fmap_app, Hl, <- !list_fmap_compose.
    replace (length (pais :: cs) * Z.to_nat lim)
      with (Z.to_nat lim + length cs * Z.to_nat lim) by (simpl; lia).
    by rewrite seq_app, fmap_app.
Qed.

Lemma numbers_distinct (l : list Patent) (w n : nat) :
  get_publicationNumber <$> l = (λ i, number i) <$> seq w n →
  remove_duplicates l = l ∧ length l = n.
Proof.
  intros Hl. split.
  - apply remove_duplicates_distinct.
    + apply Forall_forall. intros p Hp.
      assert (Hin : get_publicationNumber p ∈ get_publicationNumber <$> l)
        by (apply list_elem_of_fmap; eauto).
      rewrite Hl in Hin. apply list_elem_of_fmap in Hin as (i & -> & _). done.
    + rewrite Hl. pose proof number_inj. apply (NoDup_fmap_2 _), NoDup_seq.
  - apply (f_equal length) in Hl. by rewrite !length_fmap, length_seq in Hl.
Qed.

(** The whole run with that collaborator: every record of every batch is
    kept, and counted in the payload. *)
Lemma counter_run (cs : list string) (s : State nat) x :
  cs ≠ [] → (0 < lim)%Z →
  tasks s !! task_id = Some x →
  ∃ s' task,
    execute_search Counter.env task_id (Counter.request cs lim) s = (inr (), s') ∧
    tasks s' !! task_id = Some task ∧
    status task = completed ∧
    total_patents task = Some (VInt (Z.of_nat (length cs * Z.to_nat lim))).
Proof.
  intros Hne Hlim Hx. set (request := Counter.request cs lim).
  destruct (start_run s x Hx) as (s0 & Hstart & Hx0 & Hw0).
  assert (∃ s1 x1 all pasta,
    find Counter.env task_id request s = (inr (pasta, all), s1) ∧
    tasks s1 !! task_id = Some x1 ∧
    get_publicationNumber <$> all =
      (λ i, number i) <$> seq (world s) (length cs * Z.to_nat lim))
    as (s1 & x1 & all & pasta & Hfind & Hx1 & Hall).
  { unfold find. rewrite (bind_inr _ _ _ _ _ Hstart).
    unfold prepare, search. cbn [countries request Counter.request].
    destruct cs as [|pais rest]; [done|]. run.
    cbn [PatentScopeScraper datetime_now mkdir Counter.env]. run.
    rewrite Hx0. run.
    match goal with
    | |- context [for_each ?l ?acc ?body ?st] =>
        edestruct (counter_loop request l eq_refl acc st)
          as (s1 & x1 & all & Hrun & Hx1 & Hw & Hl);
          [cbn [tasks]; apply lookup_insert_eq | rewrite Hrun]
    end.
    cbn [world] in Hl. rewrite Hw0 in Hl.
    eexists _, x1, all, _. split; [reflexivity|]. by split. }
  destruct (numbers_distinct all _ _ Hall) as [Hdistinct Hlen].
  destruct (deduplicate_run s1 task_id all x1 Hx1) as (s2 & Hdedup & Hx2 & Hw2).
  rewrite Hdistinct in Hdedup.
  destruct (enrich_skipped Counter.env s2 task_id request all _ Hx2 eq_refl)
    as (s3 & Henrich & Hx3 & Hw3).
  destruct (persist_complete_succeeds Counter.env s3 task_id request pasta all
              all _ VNone (world s3) (world s3) Demo.noon (world s3) (world s3)
              Hx3 eq_refl eq_refl eq_refl eq_refl)
    as (s' & Hfin & Hx' & _).
  eexists s', _.
  split; [|split; [exact Hx'|split; [done|]]].
  - rewrite (execute_search_found Counter.env _ _ _ _ _ Hfind).
    unfold try_except, conclude. cbn [fst snd].
    rewrite (bind_inr _ _ _ _ _ Hdedup).
    rewrite decide_False.
    2:{ rewrite Hlen. destruct cs; [done|]. simpl. lia. }
    unfold finish. rewrite (bind_inr _ _ _ _ _ Henrich). by rewrite Hfin.
  - unfold total_patents. cbn. by rewrite Hlen.
Qed.

End CounterRun.

(** C9.  For every request with a list of countries that is not empty, a
    search phase that returns has called the search collaborator once per
    country, in order, each time with the whole limit of the request, and its
    records are the batches returned, each tagged with its country, one after
    the other: their number is the sum of the sizes of the batches, at most
    the number of countries times a bound on every batch.  And for every
    list of two or more countries and every limit of at least one, with a
    collaborator that never returns more than the limit in a batch, the
    worker completes the task with a [total_patents] equal to the number of
    countries times the limit, which is more than the limit. *)
Theorem search_once_per_country :
  (∀ W (env : Env W) task_id request cs (s s' : State W) all_patents,
     countries request = Some cs → cs ≠ [] →
     is_Some (tasks s !! task_id) →
     search env task_id request s = (inr all_patents, s') →
     ∃ tr batches,
       trace s' = trace s ++ tr ∧
       calls tr =
         (λ pais, CallBuscar (term request) "all" pais (limit request)) <$> cs ∧
       Forall2
         (λ pais batch,
            ∃ w w', buscar_patentes env (term request) "all" pais
                      (limit request) w = (inr batch, w'))
         cs batches ∧
       all_patents = tagged cs batches ∧
       length all_patents = sum_list (length <$> batches) ∧
       ∀ n, Forall (λ batch, length batch ≤ n) batches →
            length all_patents ≤ length cs * n) ∧
  (∀ cs lim task_id (s : State nat) task0,
     2 ≤ length cs → (1 ≤ lim)%Z →
     tasks s !! task_id = Some task0 →
     (∀ termo campo pais w,
        ∃ batch w',
          buscar_patentes Counter.env termo campo pais lim w = (inr batch, w') ∧
          (Z.of_nat (length batch) ≤ lim)%Z) ∧
     ∃ s' task,
       execute_search Counter.env task_id (Counter.request cs lim) s =
         (inr (), s') ∧
       tasks s' !! task_id = Some task ∧
       status task = completed ∧
       total_patents task = Some (VInt (Z.of_nat (length cs) * lim)) ∧
       (lim < Z.of_nat (length cs) * lim)%Z).
Proof.
  split.
  - intros W env task_id request cs s s' all_patents Hcs Hne Hin Hrun.
    destruct (search_by_country_run env task_id request cs s s' all_patents
                Hcs Hne Hin Hrun) as (tr & batches & Htr & Hcalls & Hret & ->).
    pose proof (Forall2_length _ _ _ Hret) as Hlen.
    exists tr, batches. repeat split; try done.
    + by apply tagged_length.
    + intros n Hn. rewrite tagged_length, Hlen by done.
      rewrite <- (length_fmap length batches). apply sum_list_bound.
      by apply Forall_fmap.
  - intros cs lim task_id s task0 Hcs Hlim Hx. split.
    + intros termo campo pais w. eexists _, _. split; [reflexivity|].
      rewrite length_fmap, length_seq. lia.
    + destruct (counter_run task_id lim cs s task0) as (s' & task & H1 & H2 & H3 & H4);
        [intros ->; simpl in Hcs; lia | lia | done |].
      exists s', task. repeat split; try done.
      * rewrite H4. do 2 f_equal. lia.
      * nia.
Qed.

Lemma search_once_per_country_witness :
  let s := state (run Counter.env [PostSearch (Counter.request ["US"; "EP"] 5)]
                    (boot 0)) in
  ∃ task0,
    2 ≤ length ["US"; "EP"] ∧ (1 ≤ 5)%Z ∧ tasks s !! "id" = Some task0 ∧
    ∃ s' task,
      execute_search Counter.env "id" (Counter.request ["US"; "EP"] 5) s =
        (inr (), s') ∧
      tasks s' !! "id" = Some task ∧
      status task = completed ∧
      total_patents task = Some (VInt 10) ∧
      (5 < 10)%Z.
Proof.
  simpl. eexists.
  split; [simpl; lia|]. split; [lia|]. split; [vm_compute; reflexivity|].
  edestruct (proj2 search_once_per_country ["US"; "EP"] 5%Z "id"
               (state (run Counter.env
                         [PostSearch (Counter.request ["US"; "EP"] 5)] (boot 0))))
    as (_ & s' & task & H1 & H2 & H3 & H4 & H5);
    [simpl; lia | lia | vm_compute; reflexivity |].
  exists s', task. split; [exact H1|]. split; [exact H2|]. split; [exact H3|].
  split; [exact H4 | exact H5].
Defined.

(** ** Counting loops *)

Section CountLoop.
Context {A : Type} (step : gmap string nat → A → gmap string nat)
  (P : A → Prop) `{Pdec : !∀ a, Decision (P a)} (key : A → string).

Hypothesis step_counted : ∀ d a, P a → step d a = increment (key a) d.
Hypothesis step_skipped : ∀ d a, ¬ P a → step d a = d.

Lemma count_loop (l : list A) : ∀ d : gmap string nat,
  let d' := fold_left step l d in
  (∀ c, default 0 (d' !! c) =
        default 0 (d !! c) + length (filter (λ a, P a ∧ key a = c) l)) ∧
  total d' = total d + length (filter P l) ∧
  (map_Forall (λ _ v, 0 < v) d → map_Forall (λ _ v, 0 < v) d').
Proof.
  induction l as [|a l IH]; intros d; simpl.
  { split; [intros; lia|]. split; [lia | done]. }
  destruct (IH (step d a)) as (Hc & Ht & Hpos).
  destruct (decide (P a)) as [Ha|Ha].
  - rewrite step_counted in * by done. split; [|split].
    + intros c. rewrite Hc, increment_lookup.
      destruct (decide (key a = c)) as [Heq|Hne].
      * rewrite (filter_cons_True (λ a, P a ∧ key a = c)) by done. simpl. lia.
      * rewrite (filter_cons_False (λ a, P a ∧ key a = c)); [lia|].
        by intros [_ ?].
    + rewrite Ht, total_increment, filter_cons_True by done. simpl. lia.
    + intros Hd. by apply Hpos, increment_positive.
  - rewrite step_skipped in * by done. split; [|split; [|done]].
    + intros c. rewrite Hc, (filter_cons_False (λ a, P a ∧ key a = c)); [done|].
      by intros [? _].
    + by rewrite Ht, filter_cons_False.
Qed.

(** The table built from the empty one. *)
Lemma count_table (l : list A) :
  let d := fold_left step l ∅ in
  (∀ c, d !! c = match length (filter (λ a, P a ∧ key a = c) l) with
                 | O => None
                 | n => Some n
                 end) ∧
  total d = length (filter P l) ∧
  (∀ c, is_Some (d !! c) → ∃ a, a ∈ l ∧ P a ∧ key a = c).
Proof.
  destruct (count_loop l ∅) as (Hc & Ht & Hpos). simpl in *.
  assert (Hlook : ∀ c, fold_left step l ∅ !! c =
    match length (filter (λ a, P a ∧ key a = c) l) with
    | O => None
    | n => Some n
    end).
  { intros c. specialize (Hc c). rewrite lookup_empty in Hc. simpl in Hc.
    destruct (fold_left step l ∅ !! c) as [v|] eqn:Hv; simpl in Hc.
    - assert (0 < v) by (eapply (Hpos (map_Forall_empty _)); exact Hv).
      rewrite <- Hc. by destruct v; [lia|].
    - by rewrite <- Hc. }
  split; [done|]. split; [by rewrite Ht, total_empty|].
  intros c [v Hv]. rewrite Hlook in Hv.
  destruct (filter (λ a, P a ∧ key a = c) l) as [|a l'] eqn:Hf; [done|].
  assert (Ha : a ∈ filter (λ a, P a ∧ key a = c) l) by (rewrite Hf; left).
  apply list_elem_of_filter in Ha as [[? ?] ?]. by exists a.
Qed.

End CountLoop.

(** ** The year table and the tables of names *)

Lemma por_ano_step_counted d p :
  dated p → por_ano_step d p = increment (str_prefix 4 (get_publicationDate p)) d.
Proof.
  unfold dated, por_ano_step. intros Hp. rewrite bool_decide_eq_true_2 by done.
  destruct (get_publicationDate p); simpl in *; [lia | done].
Qed.

Lemma por_ano_step_skipped d p : ¬ dated p → por_ano_step d p = d.
Proof.
  unfold dated, por_ano_step. intros Hp.
  rewrite bool_decide_eq_false_2 by done. by rewrite andb_false_r.
Qed.

(** X1.  For every list of records, the year table holds, under each key
    [y], the number of records whose publication date has at least four
    characters and begins with [y], a key without such a record being
    absent; its values add up to the number of records whose date has at
    least four characters; and every key has exactly four characters. *)
Theorem por_ano_counts (patents_list : list Patent) :
  (∀ y,
     por_ano patents_list !! y =
     match length (filter (λ p, dated p ∧
                                str_prefix 4 (get_publicationDate p) = y)
                     patents_list) with
     | O => None
     | n => Some n
     end) ∧
  total (por_ano patents_list) = length (filter dated patents_list) ∧
  (∀ y, is_Some (por_ano patents_list !! y) → String.length y = 4).
Proof.
  destruct (count_table por_ano_step dated
              (λ p, str_prefix 4 (get_publicationDate p))
              por_ano_step_counted por_ano_step_skipped patents_list)
    as (Hlook & Htotal & Hkeys).
  split; [exact Hlook|]. split; [exact Htotal|].
  intros y Hy. destruct (Hkeys y Hy) as (p & _ & Hp & <-).
  by apply str_prefix_length.
Qed.

(** X2.  Every key of the country table has exactly two characters and is
    the beginning of the publication number of a record of the list; the
    values of the table add up to at most the number of records; and for the
    table of a de-duplicated list, to at most the number of records found. *)
Theorem por_pais_keys (patents_list : list Patent) :
  (∀ c, is_Some (por_pais patents_list !! c) →
        String.length c = 2 ∧
        ∃ p, p ∈ patents_list ∧ str_prefix 2 (get_publicationNumber p) = c) ∧
  total (por_pais patents_list) ≤ length patents_list ∧
  total (por_pais (remove_duplicates patents_list)) ≤ length patents_list.
Proof.
  assert (Hany : ∀ l, total (por_pais l) ≤ length l).
  { intros l.
    destruct (count_table por_pais_step counted
                (λ p, str_prefix 2 (get_publicationNumber p))
                por_pais_step_counted por_pais_step_skipped l)
      as (_ & Htotal & _).
    unfold por_pais. rewrite Htotal. apply length_filter. }
  destruct (count_table por_pais_step counted
              (λ p, str_prefix 2 (get_publicationNumber p))
              por_pais_step_counted por_pais_step_skipped patents_list)
    as (_ & _ & Hkeys).
  split; [|split; [apply Hany|]].
  - intros c Hc. destruct (Hkeys c Hc) as (p & Hin & Hp & <-).
    split; [by apply str_prefix_length | by exists p].
  - etrans; [apply Hany|].
    destruct (remove_duplicates_kept patents_list) as (Hsub & _).
    by apply sublist_length.
Qed.

(** The loop over the records is the loop over all their names. *)
Lemma count_names_concat (f : Patent → list string) (l : list Patent) :
  ∀ d, fold_left (λ d p, count_names d (f p)) l d =
       count_names d (concat (f <$> l)).
Proof.
  induction l as [|p l IH]; intros d; simpl; [done|].
  rewrite IH. unfold count_names. by rewrite fold_left_app.
Qed.

Lemma count_names_table (names : list string) :
  let d := count_names ∅ names in
  (∀ x, d !! x = match occurrences x names with O => None | n => Some n end) ∧
  d !! "" = None ∧
  total d = length (filter (λ y, y ≠ "") names).
Proof.
  destruct (count_table (λ d x, if truthy x then increment x d else d)
              (λ y : string, y ≠ "") (λ y, y)) with (l := names)
    as (Hlook & Htotal & Hkeys).
  { intros d a Ha. apply truthy_spec in Ha. by rewrite Ha. }
  { intros d a Ha. destruct (truthy a) eqn:Ht; [|done].
    by apply truthy_spec in Ht. }
  fold (count_names ∅ names) in *. simpl. split; [exact Hlook|].
  split; [|exact Htotal].
  destruct (count_names ∅ names !! "") eqn:Hempty; [|done].
  destruct (Hkeys "") as (a & _ & Ha & Heq); [by eexists | done].
Qed.

(** X3.  For every list of records, the table of applicants holds, under
    each name, the number of times that name occurs in the lists of
    applicants of the records, a record with several applicants counting
    once for each; the empty name is never a key; and the values add up to
    the number of non-empty entries of those lists.  The table of inventors
    is the same over the lists of inventors. *)
Theorem names_tables_count (patents_list : list Patent) :
  ((∀ x, top_applicants patents_list !! x =
         match occurrences x (all_applicants patents_list) with
         | O => None
         | n => Some n
         end) ∧
   top_applicants patents_list !! "" = None ∧
   total (top_applicants patents_list) =
     length (filter (λ y, y ≠ "") (all_applicants patents_list))) ∧
  ((∀ x, top_inventors patents_list !! x =
         match occurrences x (all_inventors patents_list) with
         | O => None
         | n => Some n
         end) ∧
   top_inventors patents_list !! "" = None ∧
   total (top_inventors patents_list) =
     length (filter (λ y, y ≠ "") (all_inventors patents_list))).
Proof.
  unfold top_applicants, top_inventors. rewrite !count_names_concat.
  split; apply count_names_table.
Qed.

(** ** The worker and the registry *)

(** X4.  The worker of an identifier that is not in the registry raises
    [KeyError] out of its own handler, whose first assignment fails as the
    first one of the body did: no collaborator is called and the state is
    left as it was. *)
Theorem worker_without_task {W} (env : Env W) task_id request (s : State W) :
  tasks s !! task_id = None →
  execute_search env task_id request s = (inl (KeyError task_id), s).
Proof.
  intros Hnone.
  unfold execute_search, execute_search_try, execute_search_except, find, start.
  run. rewrite Hnone. run. by rewrite Hnone.
Qed.

Lemma worker_without_task_witness :
  tasks (state (boot (Demo.world [] None None))) !! "id-1" = None ∧
  execute_search Demo.env "id-1" (Demo.aspirin None 5 false)
    (state (boot (Demo.world [] None None))) =
  (inl (KeyError "id-1"), state (boot (Demo.world [] None None))).
Proof.
  assert (H : tasks (state (boot (Demo.world [] None None))) !! "id-1" = None)
    by reflexivity.
  split; [exact H|].
  exact (worker_without_task Demo.env "id-1" (Demo.aspirin None 5 false) _ H).
Defined.

(** X5.  For every task of the registry, whatever the collaborators do, the
    worker leaves every other task of the registry as it was, adds and
    removes no task, and leaves the identifier, the request and the creation
    time of its own task as they were. *)
Theorem worker_frame {W} (env : Env W) task_id request (s : State W) task0 :
  tasks s !! task_id = Some task0 →
  let s' := (execute_search env task_id request s).2 in
  (∀ other, other ≠ task_id → tasks s' !! other = tasks s !! other) ∧
  dom (tasks s') = dom (tasks s) ∧
  ∃ task, tasks s' !! task_id = Some task ∧ same_identity task0 task.
Proof.
  intros Ht.
  assert (Hspec : hoare
    (reached (λ _ _, True) (λ _, True) (λ _, True) (tasks s) (trace s) task_id
       (status task0) (same_identity task0))
    (execute_search env task_id request)
    (λ _, reached (λ _ _, True) (λ _, True) (λ _, True) (tasks s) (trace s)
            task_id (status task0) (outcome (same_identity task0)))
    (λ e s', is_Exception e = false ∧
       reached (λ _ _, True) (λ _, True) (λ _, True) (tasks s) (trace s)
         task_id (status task0) (in_status running (same_identity task0)) s'))
    by (apply execute_search_spec; done).
  assert (Hs : reached (λ _ _, True) (λ _, True) (λ _, True) (tasks s)
                 (trace s) task_id (status task0) (same_identity task0) s)
    by (by apply reached_start).
  specialize (Hspec s Hs).
  assert (Hend : ∃ task,
    tasks (execute_search env task_id request s).2 = <[task_id := task]> (tasks s) ∧
    same_identity task0 task).
  { destruct (execute_search env task_id request s) as [[e|[]] s'].
    - destruct Hspec as (_ & task & tr & Htasks & _ & _ & _ & Hx).
      by exists task.
    - destruct Hspec as (task & tr & Htasks & _ & _ & Hout). exists task.
      split; [done|].
      destruct Hout as [(? & ? & x & r & [_ Hx] & _ & ->)|(e & x & [_ Hx] & ->)];
        exact Hx. }
  destruct Hend as (task & Htasks & Hx).
  cbv zeta. rewrite Htasks. split; [|split].
  - intros other Hne. by rewrite lookup_insert_ne.
  - by apply dom_insert_lookup_L.
  - exists task. by rewrite lookup_insert_eq.
Qed.

Lemma worker_frame_witness :
  let request := Demo.aspirin (Some ["US"; "EP"]) 5 true in
  let s := state (run Demo.env Demo.session (boot Demo.two_countries)) in
  ∃ task0,
    tasks s !! "id-1" = Some task0 ∧
    let s' := (execute_search Demo.env "id-1" request s).2 in
    (∀ other, other ≠ "id-1" → tasks s' !! other = tasks s !! other) ∧
    dom (tasks s') = dom (tasks s) ∧
    ∃ task, tasks s' !! "id-1" = Some task ∧ same_identity task0 task.
Proof.
  cbv zeta. eexists. split; [vm_compute; reflexivity|].
  eapply (worker_frame Demo.env). vm_compute; reflexivity.
Defined.

(** ** The endpoints *)

Section Endpoints.
Context {W : Type} (env : Env W).

(** X6.  A submission stores, under the identifier it returns, a task that
    [GET /status] then reports as "queued" with no progress, result or error;
    it schedules one worker, for that identifier and that request, after
    those already scheduled; and it leaves the tasks of other identifiers as
    they were. *)
Theorem submit_then_status (req : SearchRequest) background_tasks
    (s : State W) :
  ∃ response s1,
    search_patents env req background_tasks s =
      (inr (response,
            background_tasks ++ [(response_task_id response, req)]), s1) ∧
    response_status response = "queued" ∧
    get_task_status (response_task_id response) s1 =
      (inr (mkTaskStatus (response_task_id response) "queued" None None None),
       s1) ∧
    (request <$> tasks s1 !! response_task_id response)
      = Some req ∧
    ∀ other, other ≠ response_task_id response →
             tasks s1 !! other = tasks s !! other.
Proof.
  destruct (search_patents_run env req background_tasks s)
    as (response & Hid & Hstatus & Hrun).
  eexists response, _. rewrite Hid. split; [exact Hrun|]. split; [done|].
  split; [|split].
  - unfold get_task_status. cbn [tasks]. by rewrite lookup_insert_eq.
  - cbn [tasks]. by rewrite lookup_insert_eq.
  - intros other Hne. cbn [tasks]. by rewrite lookup_insert_ne.
Qed.

(** A query leaves the server as it was. *)
Lemma handle_query (op : Op) (sys : System W) :
  writes_state op = false → handle env op sys = sys.
Proof.
  destruct op as [r|id| |i]; intros Hq; try done; destruct sys as [s b].
  - unfold handle. by rewrite get_task_status_state.
  - done.
Qed.

(** X7.  The status of an identifier that is not in the registry is the HTTP
    error 404 "Task not found"; and neither [GET /status] nor [GET /tasks]
    changes anything: a run of the server ends in the same state, with the
    same workers scheduled, when its queries are left out. *)
Theorem queries_are_read_only (ops : list Op) (sys : System W) :
  (∀ task_id, tasks (state sys) !! task_id = None →
     get_task_status task_id (state sys) =
     (inl (HTTPException 404 "Task not found"), state sys)) ∧
  run env (filter (λ op, writes_state op = true) ops) sys = run env ops sys.
Proof.
  split.
  - intros task_id Hnone. unfold get_task_status. by rewrite Hnone.
  - revert sys. induction ops as [|op ops IH]; intros sys; [done|].
    destruct (writes_state op) eqn:Hop.
    + rewrite filter_cons_True by done. simpl. apply IH.
    + rewrite filter_cons_False by (by rewrite Hop). simpl.
      rewrite handle_query by done. apply IH.
Qed.

(** The number of tasks after one operation. *)
Lemma handle_size (op : Op) (sys : System W) :
  invariant sys →
  match op with
  | PostSearch _ => tasks (state sys) !! (uuid4 env (world (state sys))).1 = None
  | _ => True
  end →
  size (tasks (state (handle env op sys))) =
  size (tasks (state sys)) + (if is_submission op then 1 else 0).
Proof.
  intros Hinv Hfresh. destruct op as [r|id| |i].
  - unfold handle.
    destruct (search_patents_run env r [] (state sys)) as (resp & _ & _ & Hrun).
    rewrite Hrun. cbn [state tasks is_submission].
    rewrite map_size_insert_None by done. lia.
  - rewrite handle_query by done. simpl. lia.
  - rewrite handle_query by done. simpl. lia.
  - unfold handle. cbn [is_submission].
    destruct (background sys !! i) as [[id request]|] eqn:Hi; [|lia].
    destruct Hinv as (_ & _ & _ & _ & I5).
    pose proof (proj1 (Forall_forall _ _) I5 _ (list_elem_of_lookup_2 _ _ _ Hi))
      as (task0 & Ht0 & Hbare). simpl in Ht0.
    destruct (execute_search_lifecycle env id request (state sys) task0 Ht0 Hbare)
      as (r & s' & task & tr & Hrun & Htasks & _).
    rewrite Hrun. cbn [state snd]. rewrite Htasks.
    rewrite map_size_insert_Some by eauto. lia.
Qed.

Lemma run_size (ops : list Op) : ∀ sys : System W,
  invariant sys → fresh_uuids env ops sys →
  size (tasks (state (run env ops sys))) =
  size (tasks (state sys)) + length (filter (λ op, is_submission op = true) ops).
Proof.
  induction ops as [|op ops IH]; intros sys Hinv Hfresh; [simpl; lia|].
  destruct Hfresh as [Hop Hfresh]. simpl.
  change (fold_left (λ sys op, handle env op sys) ops (handle env op sys))
    with (run env ops (handle env op sys)).
  rewrite IH by (by try apply invariant_handle).
  rewrite handle_size by done.
  destruct (is_submission op) eqn:Hs.
  - rewrite filter_cons_True by done. simpl. lia.
  - rewrite filter_cons_False by (by rewrite Hs). lia.
Qed.

(** X8.  Along every run of the server from its start in which [uuid4]
    returns new identifiers, the registry holds one task per submission, no
    more and no less (no task is ever dropped or merged); [GET /tasks]
    returns that number as its total, with one entry per task, and the
    identifiers of the entries are those of the registry. *)
Theorem one_task_per_submission (w : W) (ops : list Op) :
  fresh_uuids env ops (boot w) →
  let s := state (run env ops (boot w)) in
  let submitted := length (filter (λ op, is_submission op = true) ops) in
  size (tasks s) = submitted ∧
  ∃ entries,
    list_tasks s = (inr (submitted, entries), s) ∧
    length entries = submitted ∧
    ∀ id, id ∈ (λ entry, entry.1.1) <$> entries ↔ is_Some (tasks s !! id).
Proof.
  intros Hfresh. simpl.
  pose proof (run_size ops (boot w) (invariant_boot w) Hfresh) as Hsize.
  cbn [boot state tasks] in Hsize. rewrite map_size_empty in Hsize.
  simpl in Hsize. split; [exact Hsize|].
  eexists. unfold list_tasks, ret. rewrite Hsize. split; [reflexivity|].
  split.
  - rewrite length_fmap, length_map_to_list. exact Hsize.
  - intros id. rewrite <- list_fmap_compose. split.
    + intros ([id' task] & -> & Hin%elem_of_map_to_list)%list_elem_of_fmap.
      simpl. eauto.
    + intros [task Hin]. apply list_elem_of_fmap. exists (id, task).
      split; [done|]. by apply elem_of_map_to_list.
Qed.

End Endpoints.

Lemma one_task_per_submission_witness :
  fresh_uuids Demo.env Demo.session (boot Demo.two_countries) ∧
  let s := state (run Demo.env Demo.session (boot Demo.two_countries)) in
  size (tasks s) = 2 ∧
  ∃ entries,
    list_tasks s = (inr (2, entries), s) ∧
    length entries = 2 ∧
    ∀ id, id ∈ (λ entry, entry.1.1) <$> entries ↔ is_Some (tasks s !! id).
Proof.
  assert (H : fresh_uuids Demo.env Demo.session (boot Demo.two_countries))
    by (vm_compute; tauto).
  split; [exact H|].
  exact (one_task_per_submission Demo.env Demo.two_countries Demo.session H).
Defined.

(** ** The search phase, its edge cases *)

Section SearchPhase.
Context {W : Type} (env : Env W) (task_id : string) (request : SearchRequest).

Local Abbreviation call_of pais :=
  (CallBuscar (term request) "all" pais (limit request)).

(** X9.  Without country filters, or with an empty list of them, a search
    phase on a task of the registry calls the search collaborator exactly
    once, through the general search and with the limit of the request, and
    returns or raises exactly what that call returned or raised: the records
    are not tagged. *)
Theorem general_search_once (s s' : State W) r :
  countries request = None ∨ countries request = Some [] →
  is_Some (tasks s !! task_id) →
  search env task_id request s = (r, s') →
  ∃ tr,
    trace s' = trace s ++ tr ∧
    calls tr = [CallBuscarSimples (term request) (limit request)] ∧
    buscar_patentes_simples env (term request) (limit request) (world s) =
      (r, world s').
Proof.
  intros Hcs [x Hx]. unfold search.
  destruct Hcs as [Hcs|Hcs]; rewrite Hcs;
  run; rewrite Hx; run; rewrite lookup_insert_eq; run;
  destruct (buscar_patentes_simples env (term request) (limit request) (world s))
    as [[e|all] w]; run; intros [= <- <-]; cbn [world trace];
    (eexists; split; [rewrite <- !app_assoc; reflexivity | done]).
Qed.

(** The loop of lines 94-109, when a search raises. *)
Lemma search_countries_raise (cs : list string) : ∀ acc (s s' : State W) e,
  is_Some (tasks s !! task_id) →
  for_each cs acc (search_country env task_id request) s = (inl e, s') →
  ∃ tr n pais w w',
    trace s' = trace s ++ tr ∧
    calls tr = take (S n) ((λ pais, call_of pais) <$> cs) ∧
    cs !! n = Some pais ∧
    buscar_patentes env (term request) "all" pais (limit request) w =
      (inl e, w').
Proof.
  induction cs as [|pais cs IH]; intros acc s s' e [x Hx] Hrun; [done|].
  cbn [for_each] in Hrun. unfold search_country in Hrun at 1.
  revert Hrun. run. rewrite Hx. run.
  destruct (buscar_patentes env (term request) "all" pais (limit request)
              (world s)) as [[e0|batch] w] eqn:Hcall; run.
  - intros [= <- <-]. eexists [_; _], 0, pais, _, _.
    split; [by rewrite <- app_assoc|]. split; [done|]. split; [done|].
    exact Hcall.
  - intros Hrun.
    apply IH in Hrun as (tr & n & pais' & w1 & w2 & Htr & Hcalls & Hn & Hraise).
    2:{ cbn [tasks]. rewrite lookup_insert_eq. eauto. }
    cbn [trace] in Htr. eexists (_ :: _ :: tr), (S n), pais', w1, w2.
    split; [by rewrite Htr, <- !app_assoc|].
    split; [by rewrite calls_write, calls_called, Hcalls|]. by split.
Qed.

(** X10.  With country filters, a search phase that raises has searched the
    countries in order up to the first whose search raised, with the whole
    limit each time, and no country after it: the exception is the one of
    that search, and the batches of the countries before it are dropped with
    it. *)
Theorem search_stops_at_first_failure (cs : list string) (s s' : State W) e :
  countries request = Some cs → cs ≠ [] →
  is_Some (tasks s !! task_id) →
  search env task_id request s = (inl e, s') →
  ∃ tr n pais w w',
    trace s' = trace s ++ tr ∧
    calls tr = take (S n) ((λ pais, call_of pais) <$> cs) ∧
    cs !! n = Some pais ∧
    buscar_patentes env (term request) "all" pais (limit request) w =
      (inl e, w').
Proof.
  intros Hcs Hne [x Hx]. unfold search. rewrite Hcs.
  destruct cs as [|pais rest]; [done|]. run. rewrite Hx. run.
  destruct (for_each (pais :: rest) [] (search_country env task_id request) _)
    as [[e0|all'] s1] eqn:Hloop; run; [|done].
  intros [= <- <-].
  apply search_countries_raise in Hloop
    as (tr & n & pais' & w1 & w2 & Htr & Hcalls & Hn & Hraise).
  2:{ cbn [tasks]. rewrite lookup_insert_eq. eauto. }
  cbn [trace] in Htr. eexists (_ :: tr), n, pais', w1, w2.
  split; [by rewrite Htr, <- !app_assoc|].
  split; [by rewrite calls_write|]. by split.
Qed.

End SearchPhase.

(** ** The country tags *)

Lemma set_pais_filtro_number (c : string) (p : Patent) :
  get_publicationNumber (set_pais_filtro c p) = get_publicationNumber p.
Proof. done. Qed.

Lemma tagged_cons c cs b batches :
  tagged (c :: cs) (b :: batches) = (set_pais_filtro c <$> b) ++ tagged cs batches.
Proof. done. Qed.

Lemma tagged_tags (cs : list string) : ∀ batches p,
  p ∈ tagged cs batches → ∃ c, c ∈ cs ∧ pais_filtro p = Some c.
Proof.
  induction cs as [|c cs IH]; intros [|b batches] p Hp;
    try by apply elem_of_nil in Hp.
  rewrite tagged_cons in Hp. apply elem_of_app in Hp as [Hp|Hp].
  - apply list_elem_of_fmap in Hp as (q & -> & _). exists c. split; [left | done].
  - destruct (IH batches p Hp) as (c' & Hc' & Htag). exists c'.
    split; [by right | done].
Qed.

Lemma head_filter_elem {A} (P : A → Prop) `{!∀ a, Decision (P a)} (l : list A) a :
  head (filter P l) = Some a → a ∈ l ∧ P a.
Proof.
  intros Hhead.
  assert (Ha : a ∈ filter P l).
  { destruct (filter P l) as [|a' l']; [done|]. injection Hhead as ->. left. }
  by apply list_elem_of_filter in Ha as [? ?].
Qed.

Lemma head_filter_some {A} (P : A → Prop) `{!∀ a, Decision (P a)} (l : list A) a :
  a ∈ l → P a → is_Some (head (filter P l)).
Proof.
  intros Hin Ha.
  assert (Hf : a ∈ filter P l) by (by apply list_elem_of_filter).
  destruct (filter P l) as [|a' l']; [by apply elem_of_nil in Hf | by eexists].
Qed.

Lemma head_filter_none {A} (P : A → Prop) `{!∀ a, Decision (P a)} (l : list A) :
  (∀ a, a ∈ l → ¬ P a) → filter P l = [].
Proof.
  intros Hall. destruct (filter P l) as [|a l'] eqn:Hf; [done|].
  assert (Ha : a ∈ filter P l) by (rewrite Hf; left).
  apply list_elem_of_filter in Ha as [? ?]. by destruct (Hall a).
Qed.

(** The first record of a number, in the tagged batches, is tagged with the
    first country whose batch has that number. *)
Lemma tagged_first (k : string) (cs : list string) : ∀ batches i c b q,
  cs !! i = Some c → batches !! i = Some b →
  q ∈ b → get_publicationNumber q = k →
  (∀ j b' q', j < i → batches !! j = Some b' → q' ∈ b' →
              get_publicationNumber q' ≠ k) →
  ∃ p, head (filter (λ p, get_publicationNumber p = k) (tagged cs batches))
       = Some p ∧ pais_filtro p = Some c.
Proof.
  induction cs as [|c0 cs IH]; intros [|b0 batches] i c b q Hc Hb Hq Hk Hbefore;
    try done.
  rewrite tagged_cons, filter_app. destruct i as [|i]; simpl in Hc, Hb.
  - simplify_eq.
    destruct (head_filter_some (λ p, get_publicationNumber p = get_publicationNumber q)
                (set_pais_filtro c <$> b) (set_pais_filtro c q)) as [p Hp].
    { apply list_elem_of_fmap. by exists q. }
    { done. }
    exists p. split.
    + destruct (filter _ (set_pais_filtro c <$> b)) as [|p' l'] eqn:Hf; [done|].
      simpl in *. done.
    + apply head_filter_elem in Hp as [Hin _].
      by apply list_elem_of_fmap in Hin as (q' & -> & _).
  - rewrite head_filter_none.
    + simpl. apply (IH batches i c b q); try done.
      intros j b' q' Hj. apply (Hbefore (S j)). lia.
    + intros p (q' & -> & Hq')%list_elem_of_fmap.
      rewrite set_pais_filtro_number. apply (Hbefore 0 b0 q'); [lia | done | done].
Qed.

(** X11.  After a search by country and the de-duplication, every record
    kept carries the tag of one of the countries searched; and a publication
    number that is not empty is kept once, with the tag of the first country,
    in the order of the request, whose batch has it: the same patent found
    again under a later country is dropped. *)
Theorem first_country_tag (cs : list string) (batches : list (list Patent)) :
  let patents_list := remove_duplicates (tagged cs batches) in
  (∀ p, p ∈ patents_list → ∃ c, c ∈ cs ∧ pais_filtro p = Some c) ∧
  (∀ i c b q,
     cs !! i = Some c → batches !! i = Some b → q ∈ b →
     get_publicationNumber q ≠ "" →
     (∀ j b' q', j < i → batches !! j = Some b' → q' ∈ b' →
                 get_publicationNumber q' ≠ get_publicationNumber q) →
     ∃ p, p ∈ patents_list ∧
          get_publicationNumber p = get_publicationNumber q ∧
          pais_filtro p = Some c ∧
          ∀ p', p' ∈ patents_list →
                get_publicationNumber p' = get_publicationNumber q → p' = p).
Proof.
  destruct (remove_duplicates_kept (tagged cs batches))
    as (Hsub & Hne & Hnd & Hfirst).
  simpl. split.
  - intros p Hp. eapply tagged_tags, elem_of_sublist; [exact Hp | exact Hsub].
  - intros i c b q Hc Hb Hq Hk Hbefore.
    destruct (tagged_first (get_publicationNumber q) cs batches i c b q)
      as (p & Hp & Htag); try done.
    rewrite <- Hfirst in Hp by done.
    pose proof (head_filter_elem _ _ _ Hp) as [Hin Hnum].
    exists p. split; [done|]. split; [done|]. split; [done|].
    intros p' Hin' Hnum'.
    apply list_elem_of_lookup in Hin as [n Hn].
    apply list_elem_of_lookup in Hin' as [n' Hn'].
    assert (n' = n); [|by simplify_eq].
    eapply NoDup_lookup; [exact Hnd| |].
    + rewrite list_lookup_fmap, Hn'. simpl. reflexivity.
    + rewrite list_lookup_fmap, Hn. simpl. by rewrite Hnum, Hnum'.
Qed.

(** ** What a completed task holds *)

Section Content.
Context {W : Type} (env : Env W) (task_id : string) (request : SearchRequest).

(** Lines 138-151 on a task of the registry: the list returned is the one
    given, or the one that the details collaborator returned; the step
    raises only an exception that is not of class [Exception]. *)
Lemma enrich_run (s : State W) patents_list x :
  tasks s !! task_id = Some x →
  (∃ l s' x',
     enrich env task_id request patents_list s = (inr l, s') ∧
     tasks s' !! task_id = Some x' ∧
     (get_details request = false → l = patents_list) ∧
     (l = patents_list ∨
      get_details request = true ∧
      ∃ w w', enriquecer_patentes_com_detalhes env patents_list
                (max_details request) w = (inr l, w'))) ∨
  (∃ e s',
     enrich env task_id request patents_list s = (inl e, s') ∧
     is_Exception e = false).
Proof.
  intros Hx. unfold enrich.
  destruct (get_details request && bool_decide (0 < length patents_list))
    eqn:Hcond.
  - apply andb_true_iff in Hcond as [Hd _]. run. rewrite Hx. run.
    destruct (enriquecer_patentes_com_detalhes env patents_list
                (max_details request) (world s)) as [[e|l] w] eqn:Hcall; run.
    + destruct e as [e| |code]; run.
      * rewrite lookup_insert_eq. run. left. eexists _, _, _.
        split; [reflexivity|]. cbn [tasks].
        split; [by rewrite insert_insert_eq, lookup_insert_eq|].
        split; [done | by left].
      * right. eexists _, _. split; [reflexivity | done].
      * right. eexists _, _. split; [reflexivity | done].
    + left. eexists _, _, _. split; [reflexivity|]. cbn [tasks].
      split; [by rewrite lookup_insert_eq|].
      split; [by rewrite Hd | right; eauto].
  - run. left. eexists _, _, _. split; [reflexivity|]. cbn [tasks].
    split; [exact Hx|]. split; [done | by left].
Qed.

(** Lines 187-214 on a task of the registry: the files are written and the
    note is "Saving results...", or an exception leaves the task there. *)
Lemma persist_run (s : State W) pasta all_patents patents_list stats x :
  tasks s !! task_id = Some x →
  (∃ d s',
     persist env task_id request pasta all_patents patents_list stats s =
       (inr (search_info request d all_patents patents_list), s') ∧
     tasks s' !! task_id = Some (with_progress "Saving results..." x)) ∨
  (∃ e s',
     persist env task_id request pasta all_patents patents_list stats s =
       (inl e, s') ∧
     tasks s' !! task_id = Some (with_progress "Saving results..." x)).
Proof.
  intros Hx. unfold persist. run. rewrite Hx. run.
  destruct (agrupar_por_publication_number env patents_list (world s))
    as [[e|g] w1]; run.
  { right. eexists _, _. split; [reflexivity|]. cbn [tasks].
    by rewrite lookup_insert_eq. }
  destruct (json_dump env (json_file pasta) g w1) as [[e|[]] w2]; run.
  { right. eexists _, _. split; [reflexivity|]. cbn [tasks].
    by rewrite lookup_insert_eq. }
  destruct (datetime_now env w2) as [d w3]. run.
  destruct (json_dump env (summary_file pasta) _ w3) as [[e|[]] w4]; run.
  { right. eexists _, _. split; [reflexivity|]. cbn [tasks].
    by rewrite lookup_insert_eq. }
  left. eexists d, _. split; [reflexivity|]. cbn [tasks].
  by rewrite lookup_insert_eq.
Qed.

(** Lines 229-232 on a task of the registry. *)
Lemma execute_search_except_run (s : State W) e x :
  tasks s !! task_id = Some x →
  ∃ s',
    execute_search_except task_id e s = (inr (), s') ∧
    tasks s' !! task_id = Some (with_error (str e) (with_status failed x)).
Proof.
  intros Hx. unfold execute_search_except. eexists. split.
  - run. rewrite Hx. run. rewrite lookup_insert_eq. run. reflexivity.
  - cbn [tasks]. by rewrite insert_insert_eq, lookup_insert_eq.
Qed.

(** Lines 128-135 on a task of the registry. *)
Lemma complete_empty_run (s : State W) x :
  tasks s !! task_id = Some x →
  ∃ s',
    complete_empty task_id s = (inr (), s') ∧
    tasks s' !! task_id =
      Some (with_result empty_result (with_status completed x)).
Proof.
  intros Hx. unfold complete_empty. eexists. split.
  - run. rewrite Hx. run. rewrite lookup_insert_eq. run. reflexivity.
  - cbn [tasks]. by rewrite insert_insert_eq, lookup_insert_eq.
Qed.

End Content.

(** X12.  For every task of the registry that its worker leaves completed
    after a search that returned [all_patents]: when no record is left after
    de-duplication the payload is the empty one and the last progress note is
    "Found 0 unique patents"; otherwise the payload is made from one list of
    records, the de-duplicated one, or, when details were asked for and the
    collaborator returned, the list it returned: the statistics are those of
    that list, [total_patents] and [total_unico] are its length,
    [total_encontrado] is the number of records found, the records inline are
    its first ten, the files are those of the results directory, and the
    last progress note is "Saving results...", also when the details
    failed. *)
Theorem completed_result_content {W} (env : Env W) task_id request
    (s s1 s' : State W) pasta all_patents task :
  is_Some (tasks s !! task_id) →
  find env task_id request s = (inr (pasta, all_patents), s1) →
  execute_search env task_id request s = (inr (), s') →
  tasks s' !! task_id = Some task →
  status task = completed →
  let patents_list := remove_duplicates all_patents in
  (patents_list = [] →
     result task = Some empty_result ∧
     progress task = Some "Found 0 unique patents") ∧
  (patents_list ≠ [] →
     ∃ l d,
       result task =
         Some (full_result (search_info request d all_patents l)
                 (statistics l) l pasta) ∧
       progress task = Some "Saving results..." ∧
       (get_details request = false → l = patents_list) ∧
       (l = patents_list ∨
        get_details request = true ∧
        ∃ w w', enriquecer_patentes_com_detalhes env patents_list
                  (max_details request) w = (inr l, w')) ∧
       total_patents task = Some (VInt (Z.of_nat (length l))) ∧
       result task ≫= dict_get "patents" = Some (VPatents (take 10 l))).
Proof.
  intros [task0 Ht] Hfind Hrun Hlook Hq patents_list.
  assert (H1 : reached (λ _ _, True) (λ _, True) (λ _, True) (tasks s)
                 (trace s) task_id (status task0)
                 (in_status running (λ _, True))
                 (find env task_id request s).2)
    by (by apply find_running).
  rewrite Hfind in H1. simpl in H1.
  apply reached_lookup in H1 as (x1 & _ & Hx1 & _).
  rewrite (execute_search_found env _ _ _ _ _ Hfind) in Hrun.
  unfold try_except, conclude in Hrun. cbn [fst snd] in Hrun.
  destruct (deduplicate_run s1 task_id all_patents x1 Hx1)
    as (s2 & Hdedup & Hx2 & _).
  fold patents_list in Hdedup, Hx2.
  rewrite (bind_inr _ _ _ _ _ Hdedup) in Hrun.
  destruct (decide (length patents_list = 0)) as [Hlen|Hlen].
  - destruct (complete_empty_run task_id s2 _ Hx2) as (s3 & Hc & Hx3).
    rewrite Hc in Hrun. simplify_eq. split; [|by intros Hne; destruct patents_list].
    intros Hnil. rewrite Hnil. done.
  - split; [intros Hnil; by rewrite Hnil in Hlen|]. intros _.
    unfold finish in Hrun.
    destruct (enrich_run env task_id request s2 patents_list _ Hx2)
      as [(l & s3 & x3 & Henrich & Hx3 & Hoff & Hon)|(e & s3 & Henrich & He)].
    2: { rewrite (bind_inl _ _ _ _ _ Henrich) in Hrun. by destruct e. }
    rewrite (bind_inr _ _ _ _ _ Henrich) in Hrun.
    destruct (persist_run env task_id request s3 pasta all_patents l
                (statistics l) x3 Hx3)
      as [(d & s4 & Hp & Hx4)|(e & s4 & Hp & Hx4)].
    + rewrite (bind_inr _ _ _ _ _ Hp) in Hrun.
      destruct (complete_run s4 task_id (search_info request d all_patents l)
                  (statistics l) l pasta _ Hx4) as (s5 & Hc & Hx5 & _).
      rewrite Hc in Hrun. simplify_eq. exists l, d.
      split; [done|]. split; [done|]. split; [done|]. split; [done|].
      split; reflexivity.
    + rewrite (bind_inl _ _ _ _ _ Hp) in Hrun.
      destruct e as [e| |code]; [|done|done].
      destruct (execute_search_except_run task_id s4 e _ Hx4) as (s5 & Hc & Hx5).
      rewrite Hc in Hrun. simplify_eq.
Qed.

Lemma completed_result_content_witness :
  let request := Demo.aspirin (Some ["US"; "EP"]) 5 true in
  let s := Demo.submitted request Demo.two_countries in
  ∃ s1 s' pasta all_patents task,
    is_Some (tasks s !! "id-1") ∧
    find Demo.env "id-1" request s = (inr (pasta, all_patents), s1) ∧
    execute_search Demo.env "id-1" request s = (inr (), s') ∧
    tasks s' !! "id-1" = Some task ∧
    status task = completed ∧
    length all_patents = 4 ∧
    let patents_list := remove_duplicates all_patents in
    (patents_list = [] →
       result task = Some empty_result ∧
       progress task = Some "Found 0 unique patents") ∧
    (patents_list ≠ [] →
       ∃ l d,
         result task =
           Some (full_result (search_info request d all_patents l)
                   (statistics l) l pasta) ∧
         progress task = Some "Saving results..." ∧
         (get_details request = false → l = patents_list) ∧
         (l = patents_list ∨
          get_details request = true ∧
          ∃ w w', enriquecer_patentes_com_detalhes Demo.env patents_list
                    (max_details request) w = (inr l, w')) ∧
         total_patents task = Some (VInt (Z.of_nat (length l))) ∧
         result task ≫= dict_get "patents" = Some (VPatents (take 10 l))).
Proof.
  cbv zeta. eexists _, _, _, _, _.
  split; [vm_compute; eauto|].
  split; [vm_compute; reflexivity|].
  split; [vm_compute; reflexivity|].
  split; [vm_compute; reflexivity|].
  split; [reflexivity|].
  split; [reflexivity|].
  eapply (completed_result_content Demo.env "id-1"
            (Demo.aspirin (Some ["US"; "EP"]) 5 true)
            (Demo.submitted (Demo.aspirin (Some ["US"; "EP"]) 5 true)
               Demo.two_countries));
    [vm_compute; eauto | vm_compute; reflexivity | vm_compute; reflexivity
    | vm_compute; reflexivity | reflexivity].
Defined.

Lemma general_search_once_witness :
  let request := Demo.aspirin (Some []) 5 false in
  let s := Demo.submitted request Demo.nameless in
  ∃ r s',
    (countries request = None ∨ countries request = Some []) ∧
    is_Some (tasks s !! "id-1") ∧
    search Demo.env "id-1" request s = (r, s') ∧
    ∃ tr,
      trace s' = trace s ++ tr ∧
      calls tr = [CallBuscarSimples (term request) (limit request)] ∧
      buscar_patentes_simples Demo.env (term request) (limit request) (world s) =
        (r, world s').
Proof.
  cbv zeta. eexists _, _.
  split; [by right|]. split; [vm_compute; eauto|].
  split; [vm_compute; reflexivity|].
  eapply (general_search_once Demo.env "id-1" (Demo.aspirin (Some []) 5 false)
            (Demo.submitted (Demo.aspirin (Some []) 5 false) Demo.nameless));
    [by right | vm_compute; eauto | vm_compute; reflexivity].
Defined.

Lemma search_stops_at_first_failure_witness :
  let request := Demo.aspirin (Some ["US"; "EP"; "JP"]) 5 false in
  let s := Demo.submitted request second_down in
  ∃ e s',
    countries request = Some ["US"; "EP"; "JP"] ∧
    ["US"; "EP"; "JP"] ≠ [] ∧
    is_Some (tasks s !! "id-1") ∧
    search Demo.env "id-1" request s = (inl e, s') ∧
    ∃ tr n pais w w',
      trace s' = trace s ++ tr ∧
      calls tr =
        take (S n)
          ((λ pais, CallBuscar (term request) "all" pais (limit request))
             <$> ["US"; "EP"; "JP"]) ∧
      ["US"; "EP"; "JP"] !! n = Some pais ∧
      buscar_patentes Demo.env (term request) "all" pais (limit request) w =
        (inl e, w').
Proof.
  cbv zeta. eexists _, _.
  split; [reflexivity|]. split; [discriminate|]. split; [vm_compute; eauto|].
  split; [vm_compute; reflexivity|].
  eapply (search_stops_at_first_failure Demo.env "id-1"
            (Demo.aspirin (Some ["US"; "EP"; "JP"]) 5 false) ["US"; "EP"; "JP"]
            (Demo.submitted (Demo.aspirin (Some ["US"; "EP"; "JP"]) 5 false)
               second_down));
    [reflexivity | discriminate | vm_compute; eauto | vm_compute; reflexivity].
Defined.
